(** * pm2md: Postman collection to Markdown

    A shallow embedding of the conversion pipeline of [cmd/root.go]
    (status-range parsing, collection parsing, response filtering,
    destination resolution and the top-level [jsonToMdFile]) together with
    the properties of that pipeline.

    Conventions of the embedding:
    - a Go [string] is a Rocq [string] (a sequence of bytes);
    - a Go [int] is a [Z] within [[minInt, maxInt]] (64-bit platform);
    - a decoded JSON document is a value of the tagged type [any], whose
      objects are [gmap string any] and whose numbers (Go [float64], always
      finite after decoding) are the rationals they denote;
    - a run-time panic is the outcome [Panic] of the [go] monad;
    - Go's multiple results [(v, err)] are pairs whose [error] component is
      an [option]: [None] is the [nil] error;
    - the file system and the standard output are an explicit [World]. *)

From Stdlib Require Import ZArith QArith Qround String Ascii List Lia.
From stdpp Require Import base option list gmap strings pretty.

#[local] Set Warnings "-register-all".
#[local] Open Scope string_scope.
#[local] Open Scope list_scope.
#[local] Open Scope Z_scope.

(** ** The Go run time: panics *)

Inductive go (A : Type) : Type :=
  | Panic
  | Ret (a : A).
Arguments Panic {A}.
Arguments Ret {A} a.

#[export] Instance go_ret : MRet go := fun _ a => Ret a.
#[export] Instance go_bind : MBind go := fun _ _ f m =>
  match m with
  | Panic => Panic
  | Ret a => f a
  end.

(** [s[i]] on a slice: an index out of range panics. *)
Definition index {A : Type} (s : list A) (i : nat) : go A :=
  match s !! i with
  | Some a => Ret a
  | None => Panic
  end.

(** The values of Go's [error] interface that this program builds, and the
    ones it passes on from the standard library. *)
Inductive error : Type :=
  (** "Invalid status format. There should be zero or one dashes in %s" *)
  | ErrDashes (statusRangeStr : string)
  (** "Invalid status range format. Expected an integer, got %q" *)
  | ErrNotInteger (substring : string)
  (** "Unknown JSON schema. When exporting from Postman, export as
      Collection v2.1.0" *)
  | ErrUnknownSchema
  (** "File %q already exists. Run the command again with the --replace
      flag to confirm replacing it." *)
  | ErrFileExists (destName : string)
  (** "os.Create: %s" *)
  | ErrCreate (cause : string)
  (** "Template parsing error: %s" *)
  | ErrTemplateParsing (cause : string)
  (** an error of [tmpl.Execute], returned as it is *)
  | ErrTemplateExecute (cause : string)
  (** an error of [json.Unmarshal], returned as it is *)
  | ErrUnmarshal (cause : string).

(** ** Integers and the library functions on strings *)

Definition intSize : Z := 64.
Definition maxInt : Z := 2 ^ (intSize - 1) - 1.
Definition minInt : Z := - 2 ^ (intSize - 1).

Definition in_int (z : Z) : bool := (minInt <=? z) && (z <=? maxInt).

(** [strings.Split(s, sep)] for a separator of one byte, which is what both
    call sites pass: the substrings between the separators, one more than
    there are separators. *)
Fixpoint strings_Split (s : string) (sep : ascii) : list string :=
  match s with
  | EmptyString => [EmptyString]
  | String c s' =>
      if Ascii.eqb c sep then EmptyString :: strings_Split s' sep
      else match strings_Split s' sep with
           | [] => [String c EmptyString]
           | piece :: pieces => String c piece :: pieces
           end
  end.

Definition is_digit (c : ascii) : bool :=
  let n := nat_of_ascii c in (48 <=? n)%nat && (n <=? 57)%nat.

Definition digit_value (c : ascii) : Z := Z.of_nat (nat_of_ascii c) - 48.

(** The digit loop of [strconv.Atoi]: [n = n*10 + int(ch)], with a syntax
    error ([None]) at the first byte that is not a decimal digit. *)
Fixpoint atoi_digits (n : Z) (s : string) : option Z :=
  match s with
  | EmptyString => Some n
  | String ch s' =>
      if is_digit ch then atoi_digits (n * 10 + digit_value ch) s' else None
  end.

(** [strconv.Atoi(s)]: an optional sign, then one or more decimal digits,
    and a value that fits [int]. [None] stands for a non-nil error (syntax or
    range); the callers read the integer only when the error is nil. *)
Definition strconv_Atoi (s : string) : option Z :=
  let neg :=
    match s with
    | String ch _ => Ascii.eqb ch "-"
    | EmptyString => false
    end in
  let body :=
    match s with
    | String ch rest =>
        if Ascii.eqb ch "-" || Ascii.eqb ch "+" then rest else s
    | EmptyString => s
    end in
  match body with
  | EmptyString => None
  | _ =>
      n ← atoi_digits 0 body;
      let i := if neg : bool then - n else n in
      if in_int i then Some i else None
  end.

(** ** parseStatusRanges *)

(** One turn of the loop of [parseStatusRanges]: the pair [[start, end]] of
    one comma-separated token, or the error that ends the function. *)
Definition parseStatusRange (statusRangeStr : string)
    : go (error + list Z) :=
  let startAndEnd := strings_Split statusRangeStr "-" in
  if (2 <? length startAndEnd)%nat then
    Ret (inl (ErrDashes statusRangeStr))
  else
    s0 ← index startAndEnd 0;
    match strconv_Atoi s0 with
    | None => Ret (inl (ErrNotInteger s0))
    | Some start =>
        if (1 <? length startAndEnd)%nat then
          s1 ← index startAndEnd 1;
          match strconv_Atoi s1 with
          | None => Ret (inl (ErrNotInteger s1))
          | Some end_ => Ret (inr [start; end_])
          end
        else Ret (inr [start; start])
    end.

(** [for i, statusRangeStr := range statusRangeStrs]: [statusRanges] is the
    slice allocated before the loop, written at index [i]. *)
Fixpoint parseStatusRanges_loop (i : nat) (statusRangeStrs : list string)
    (statusRanges : list (list Z))
    : go (option (list (list Z)) * option error) :=
  match statusRangeStrs with
  | [] => Ret (Some statusRanges, None)
  | statusRangeStr :: rest =>
      r ← parseStatusRange statusRangeStr;
      match r with
      | inl err => Ret (None, Some err)
      | inr startEnd =>
          parseStatusRanges_loop (S i) rest (<[i := startEnd]> statusRanges)
      end
  end.

(** The result is Go's pair: the slice ([None] is the nil slice) and the
    error ([None] is the nil error). *)
Definition parseStatusRanges (statusesStr : string)
    : go (option (list (list Z)) * option error) :=
  if (String.length statusesStr =? 0)%nat then Ret (None, None)
  else
    let statusRangeStrs := strings_Split statusesStr "," in
    let statusRanges := replicate (length statusRangeStrs) ([] : list Z) in
    parseStatusRanges_loop 0 statusRangeStrs statusRanges.

(** ** Decoded JSON documents *)

(** What [json.Unmarshal] stores in an [any]: [nil], [bool], [float64],
    [string], [[]any] and [map[string]any]. A JSON number is decoded to a
    finite [float64]; it is represented by the rational it denotes. *)
Inductive any : Type :=
  | ANil
  | ABool (b : bool)
  | AFloat64 (f : Q)
  | AString (s : string)
  | ASlice (xs : list any)
  | AMap (m : gmap string any).

(** [m[key]] on a [map[string]any]: the [nil] interface when the key is
    absent (also on the nil map, which reads as the empty map). *)
Definition map_index (m : gmap string any) (key : string) : any :=
  default ANil (m !! key).

(** The type assertions [x.(map[string]any)], [x.([]any)], [x.(string)] and
    [x.(float64)]: a panic when the dynamic type is another one, and so on the
    [nil] interface. *)
Definition assert_map (x : any) : go (gmap string any) :=
  match x with AMap m => Ret m | _ => Panic end.
Definition assert_slice (x : any) : go (list any) :=
  match x with ASlice xs => Ret xs | _ => Panic end.
Definition assert_string (x : any) : go string :=
  match x with AString s => Ret s | _ => Panic end.
Definition assert_float64 (x : any) : go Q :=
  match x with AFloat64 f => Ret f | _ => Panic end.

(** [x != "..."] between an interface value and a string constant: equal only
    when the dynamic type is [string] and the strings are equal. *)
Definition any_neq_string (x : any) (s : string) : bool :=
  match x with
  | AString s' => negb (String.eqb s' s)
  | _ => true
  end.

(** The conversion [int(f)] of a [float64]: the fraction is discarded
    (truncation towards zero). Go leaves the result to the implementation when
    the truncated value does not fit [int]; [minInt] is what amd64 gives. *)
Definition int_of_float64 (f : Q) : Z :=
  let t := if Qle_bool 0 f then Qfloor f else Qceiling f in
  if in_int t then t else minInt.

(** ** parseCollection *)

Definition collection_schema : string :=
  "https://schema.getpostman.com/json/collection/v2.1.0/collection.json".

Section ParseCollection.

(** [json.Unmarshal(jsonBytes, &collection)] with [collection] a nil
    [map[string]any]: the map that it leaves in [collection] and the cause
    of its error. The decoder is the standard library's and is a parameter
    here. *)
Variable json_Unmarshal : string → gmap string any * option string.

(** The nil map of the error returns is the empty map. *)
Definition parseCollection (jsonBytes : string)
    : go (gmap string any * option error) :=
  let '(collection, err) := json_Unmarshal jsonBytes in
  match err with
  | Some cause => Ret (∅, Some (ErrUnmarshal cause))
  | None =>
      info ← assert_map (map_index collection "info");
      if any_neq_string (map_index info "schema") collection_schema then
        Ret (∅, Some ErrUnknownSchema)
      else Ret (collection, None)
  end.

End ParseCollection.

(** ** filterResponsesByStatus *)

(** [slices.Delete(s, i, j)]: [s] without [s[i:j]]; a panic when the bounds
    are not [i <= j <= len(s)]. *)
Definition slices_Delete {A : Type} (s : list A) (i j : nat) : go (list A) :=
  if (i <=? j)%nat && (j <=? length s)%nat then Ret (take i s ++ drop j s)
  else Panic.

(** [for _, statusRange := range statusRanges]: whether the code of
    [response] is in one of the ranges. The second bound is read only when the
    first comparison holds, and the loop ends at the first match. *)
Fixpoint response_inRange (response : gmap string any)
    (statusRanges : list (list Z)) : go bool :=
  match statusRanges with
  | [] => Ret false
  | statusRange :: rest =>
      f ← assert_float64 (map_index response "code");
      let code := int_of_float64 f in
      lo ← index statusRange 0;
      if code >=? lo then
        hi ← index statusRange 1;
        if code <=? hi then Ret true else response_inRange response rest
      else response_inRange response rest
  end.

(** [for j := len(responses) - 1; j >= 0; j--], entered with [j + 1 = n]. The
    state is the local [responses] and the map [endpoint], which the loop
    writes in place; the result is [endpoint] after the loop. *)
Fixpoint filterResponses_loop (n : nat) (statusRanges : list (list Z))
    (endpoint : gmap string any) (responses : list any)
    : go (gmap string any) :=
  match n with
  | O => Ret endpoint
  | S j =>
      responseAny ← index responses j;
      response ← assert_map responseAny;
      inRange ← response_inRange response statusRanges;
      if inRange : bool then
        filterResponses_loop j statusRanges endpoint responses
      else
        responses' ← slices_Delete responses j (j + 1);
        filterResponses_loop j statusRanges
          (<["response" := ASlice responses']> endpoint) responses'
  end.

(** [for _, endpointAny := range endpoints]: every element is a map, which is
    a reference, so what the body writes is seen through the slice; the result
    is the slice with its maps as the loop leaves them. *)
Fixpoint filterEndpoints_loop (statusRanges : list (list Z))
    (endpoints : list any) : go (list any) :=
  match endpoints with
  | [] => Ret []
  | endpointAny :: rest =>
      endpoint ← assert_map endpointAny;
      responses ← assert_slice (map_index endpoint "response");
      endpoint' ← filterResponses_loop (length responses) statusRanges
                    endpoint responses;
      rest' ← filterEndpoints_loop statusRanges rest;
      Ret (AMap endpoint' :: rest')
  end.

(** The function returns nothing and changes [collection] in place; the
    embedding returns the collection as the call leaves it. [statusRanges] is
    [None] for the nil slice. *)
Definition filterResponsesByStatus (collection : gmap string any)
    (statusRanges : option (list (list Z))) : go (gmap string any) :=
  match statusRanges with
  | None => Ret collection
  | Some [] => Ret collection
  | Some statusRanges =>
      endpoints ← assert_slice (map_index collection "item");
      endpoints' ← filterEndpoints_loop statusRanges endpoints;
      Ret (<["item" := ASlice endpoints']> collection)
  end.

(** ** The file system and the standard output *)

(** An [*os.File]: [os.Stdout], or the handle that [os.Create] returned for a
    path. *)
Inductive File : Type :=
  | Stdout
  | Created (name : string).

Record World : Type := mkWorld {
  (** the files that exist, by path, with their contents *)
  files : gmap string string;
  (** the paths at which [os.Create] fails (no permission, a directory, a
      missing parent directory) *)
  uncreatable : gset string;
  (** the handles of [os.Create] that are not closed *)
  open_files : gset string;
  (** whether [os.Stdout] is still open, and what was written to it *)
  stdout_open : bool;
  stdout_written : string;
}.

(** [os.Create(name)]: the file is created, or truncated when it exists, and
    opened; the error is the cause when the path cannot be created. *)
Definition os_Create (w : World) (name : string)
    : World * (option File * option string) :=
  if decide (name ∈ uncreatable w) then (w, (None, Some ("open " +:+ name)))
  else
    (mkWorld (<[name := ""]> (files w)) (uncreatable w)
       ({[name]} ∪ open_files w) (stdout_open w) (stdout_written w),
     (Some (Created name), None)).

(** [f.Close()], whose error is never read. *)
Definition File_Close (w : World) (f : File) : World :=
  match f with
  | Stdout =>
      mkWorld (files w) (uncreatable w) (open_files w) false (stdout_written w)
  | Created name =>
      mkWorld (files w) (uncreatable w) (open_files w ∖ {[name]})
        (stdout_open w) (stdout_written w)
  end.

(** [os.Remove(name)], whose error is never read: the file at [name] is
    deleted when there is one. *)
Definition os_Remove (w : World) (name : string) : World :=
  mkWorld (delete name (files w)) (uncreatable w) (open_files w)
    (stdout_open w) (stdout_written w).

(** The bytes that a template execution writes to its destination. *)
Definition File_Write (w : World) (f : File) (bytes : string) : World :=
  match f with
  | Stdout =>
      mkWorld (files w) (uncreatable w) (open_files w) (stdout_open w)
        (stdout_written w +:+ bytes)
  | Created name =>
      mkWorld (alter (λ contents, contents +:+ bytes) name (files w))
        (uncreatable w) (open_files w) (stdout_open w) (stdout_written w)
  end.

(** ** The helpers of utils.go *)

(** Modelled from the spec: [FileExists] of utils.go, which is not among the
    sources. The spec has it read whether a file exists at the path, and
    nothing else. *)
Definition FileExists (w : World) (name : string) : bool :=
  bool_decide (is_Some (files w !! name)).

(** Modelled from the spec: the contract on [ext] of [CreateUniqueFileName]:
    empty, or a dot followed by something. *)
Definition ext_ok (ext : string) : bool :=
  match ext with
  | EmptyString => true
  | String "." EmptyString => false
  | String "." _ => true
  | String _ _ => false
  end.

(** Modelled from the spec: the name tried for the suffix [i], base(i)ext. *)
Definition suffixed_name (base ext : string) (i : nat) : string :=
  base +:+ "(" +:+ pretty i +:+ ")" +:+ ext.

(** Modelled from the spec: the sequential probe of [CreateUniqueFileName]
    from the suffix [i] on, for at most [fuel] suffixes. *)
Fixpoint probe_suffix (w : World) (base ext : string) (fuel i : nat)
    : option string :=
  match fuel with
  | O => None
  | S fuel' =>
      if FileExists w (suffixed_name base ext i)
      then probe_suffix w base ext fuel' (S i)
      else Some (suffixed_name base ext i)
  end.

(** Modelled from the spec: [CreateUniqueFileName] of utils.go, which is not
    among the sources (its tests are). A malformed [ext] is a panic; then
    base+ext when nothing exists there, else the first free base(i)+ext for
    i = 1, 2, ... Among [size (files w) + 1] suffixes one is free, which is the
    fuel of the probe. Nothing is created: the world is read only. *)
Definition CreateUniqueFileName (w : World) (base ext : string) : go string :=
  if negb (ext_ok ext) then Panic
  else if negb (FileExists w (base +:+ ext)) then Ret (base +:+ ext)
  else
    match probe_suffix w base ext (S (size (files w))) 1 with
    | Some name => Ret name
    | None => Panic
    end.

(** ** getDestFile, executeTemplate and jsonToMdFile *)

Section Pipeline.

Variable json_Unmarshal : string → gmap string any * option string.

(** [FormatFileName] of utils.go, which is not among the sources: the
    transform that makes a file name of the collection's name. *)
Variable FormatFileName : string → string.

(** [template.New(tmplName).Funcs(funcMap).Parse(tmplStr)]: the cause of
    the error when the text does not compile. *)
Variable template_Parse : string → string → option string.

(** [tmpl.Execute(destFile, collection)] of the compiled template: the bytes
    that it writes before it ends, and the cause of its error if it fails. *)
Variable template_Execute :
  string → string → gmap string any → string * option string.

(** The results are the file, the name and the error of the source; the
    file is [None] for the nil pointer. *)
Definition getDestFile (w : World) (destName collectionName : string)
    (confirmReplaceExistingFile : bool)
    : go (World * (option File * string * option error)) :=
  if String.eqb destName "-" then Ret (w, (Some Stdout, destName, None))
  else
    let create (destName : string) :=
      let '(w', (destFile, err)) := os_Create w destName in
      match err with
      | Some cause => (w', (None, "", Some (ErrCreate cause)))
      | None => (w', (destFile, destName, None))
      end in
    if (String.length destName =? 0)%nat then
      let fileName := FormatFileName collectionName in
      let fileName :=
        if (String.length fileName =? 0)%nat then "collection"
        else fileName in
      destName ← CreateUniqueFileName w fileName ".md";
      Ret (create destName)
    else if FileExists w destName && negb confirmReplaceExistingFile then
      Ret (w, (None, "", Some (ErrFileExists destName)))
    else Ret (create destName).

Definition executeTemplate (w : World) (destFile : File)
    (collection : gmap string any) (tmplName tmplStr : string)
    : World * option error :=
  match template_Parse tmplName tmplStr with
  | Some cause => (w, Some (ErrTemplateParsing cause))
  | None =>
      let '(bytes, err) := template_Execute tmplName tmplStr collection in
      (File_Write w destFile bytes, ErrTemplateExecute <$> err)
  end.

(** [defer destFile.Close()] is the [deferred] flag: the call runs when the
    function returns, after the statements of the return path. A nil
    [destFile] comes with an error, on which the function has returned. *)
Definition jsonToMdFile (w : World) (jsonBytes destName tmplName
    tmplStr : string) (statusRanges : option (list (list Z)))
    (confirmReplaceExistingFile : bool)
    : go (World * (string * option error)) :=
  '(collection, err) ← parseCollection json_Unmarshal jsonBytes;
  match err with
  | Some err => Ret (w, ("", Some err))
  | None =>
      collection ← filterResponsesByStatus collection statusRanges;
      info ← assert_map (map_index collection "info");
      collectionName ← assert_string (map_index info "name");
      '(w, (destFile, destName, err)) ←
        getDestFile w destName collectionName confirmReplaceExistingFile;
      match err, destFile with
      | Some err, _ => Ret (w, ("", Some err))
      | None, None => Panic
      | None, Some destFile =>
          let deferred := negb (String.eqb destName "-") in
          let run_deferred (w : World) :=
            if deferred then File_Close w destFile else w in
          let '(w, err) :=
            executeTemplate w destFile collection tmplName tmplStr in
          match err with
          | Some err =>
              let w := File_Close w destFile in
              let w := os_Remove w destName in
              Ret (run_deferred w, ("", Some err))
          | None => Ret (run_deferred w, (destName, None))
          end
      end
  end.

End Pipeline.

(** ** The grammar of status-range expressions

    [range (',' range)*] with [range := INT | INT '-' INT], as relations
    between the text and what it denotes. *)

(** A non-empty string of decimal digits and the number it denotes. *)
Inductive INT : string → Z → Prop :=
  | INT_digit (c : ascii) :
      is_digit c = true → INT (String c "") (digit_value c)
  | INT_more (s : string) (n : Z) (c : ascii) :
      INT s n → is_digit c = true →
      INT (s +:+ String c "") (n * 10 + digit_value c).

(** One range token, whose bounds fit [int]. *)
Inductive range_token : string → list Z → Prop :=
  | range_single (s : string) (n : Z) :
      INT s n → n <= maxInt → range_token s [n; n]
  | range_interval (s1 s2 : string) (n m : Z) :
      INT s1 n → INT s2 m → n <= maxInt → m <= maxInt →
      range_token (s1 +:+ "-" +:+ s2) [n; m].

(** A well-formed expression and its ranges, in the order of the tokens. *)
Inductive range_expr : string → list (list Z) → Prop :=
  | expr_last (t : string) (r : list Z) :
      range_token t r → range_expr t [r]
  | expr_more (t e : string) (r : list Z) (rs : list (list Z)) :
      range_token t r → range_expr e rs →
      range_expr (t +:+ "," +:+ e) (r :: rs).

(** The number of occurrences of a byte, and its absence. *)
Fixpoint count_char (c : ascii) (s : string) : nat :=
  match s with
  | EmptyString => O
  | String c' s' => (if Ascii.eqb c' c then 1 else 0) + count_char c s'
  end.

Definition no_char (c : ascii) (s : string) : Prop := count_char c s = O.

(** An integer as [strconv.Atoi] reads one: an optional sign before the
    digits, and a value that fits [int]. *)
Inductive integer_literal : string → Z → Prop :=
  | literal_unsigned (s : string) (n : Z) : INT s n → integer_literal s n
  | literal_plus (s : string) (n : Z) :
      INT s n → integer_literal (String "+" s) n
  | literal_minus (s : string) (n : Z) :
      INT s n → integer_literal (String "-" s) (- n).

Definition is_integer (s : string) (z : Z) : Prop :=
  integer_literal s z ∧ minInt <= z <= maxInt.

Definition not_integer (s : string) : Prop := ∀ z : Z, ¬ is_integer s z.

(** What makes a token malformed, and the error it is reported by. *)
Inductive token_error : string → error → Prop :=
  | too_many_dashes (t : string) :
      (1 < count_char "-" t)%nat → token_error t (ErrDashes t)
  | bad_single (s0 : string) :
      no_char "-" s0 → not_integer s0 →
      token_error s0 (ErrNotInteger s0)
  | bad_start (s0 s1 : string) :
      no_char "-" s0 → no_char "-" s1 → not_integer s0 →
      token_error (s0 +:+ "-" +:+ s1) (ErrNotInteger s0)
  | bad_end (s0 s1 : string) (start : Z) :
      no_char "-" s0 → no_char "-" s1 →
      is_integer s0 start → not_integer s1 →
      token_error (s0 +:+ "-" +:+ s1) (ErrNotInteger s1).

Definition malformed (t : string) : Prop := ∃ err, token_error t err.

(** A token that is empty or has a dash at one of its ends. *)
Definition dash_at_an_end (t : string) : Prop :=
  t = "" ∨ (∃ rest, t = "-" +:+ rest) ∨ (∃ rest, t = rest +:+ "-").

(** The loop body and the loop of [parseStatusRanges] as total functions. *)
Definition range_of_token (t : string) : error + list Z :=
  match strings_Split t "-" with
  | [s0] =>
      match strconv_Atoi s0 with
      | None => inl (ErrNotInteger s0)
      | Some start => inr [start; start]
      end
  | [s0; s1] =>
      match strconv_Atoi s0, strconv_Atoi s1 with
      | None, _ => inl (ErrNotInteger s0)
      | Some _, None => inl (ErrNotInteger s1)
      | Some start, Some end_ => inr [start; end_]
      end
  | _ => inl (ErrDashes t)
  end.

Fixpoint ranges_of_tokens (ts : list string) : error + list (list Z) :=
  match ts with
  | [] => inr []
  | t :: ts' =>
      match range_of_token t with
      | inl err => inl err
      | inr r =>
          match ranges_of_tokens ts' with
          | inl err => inl err
          | inr rs => inr (r :: rs)
          end
      end
  end.

(** [strings.Join(pieces, sep)] for a separator of one byte. *)
Fixpoint join (sep : ascii) (pieces : list string) : string :=
  match pieces with
  | [] => ""
  | [p] => p
  | p :: ps => p +:+ String sep (join sep ps)
  end.

(** ** The shape of a collection, and sample data *)

(** The shape that the filter trusts (Endpoint and Response of the data
    model): the elements of [item] are objects, each with a list [response] of
    objects, each with a [code] that is a status code, a whole number within
    [int]. *)
Definition Response (response : any) : Prop :=
  ∃ (m : gmap string any) (f : Q) (z : Z),
    response = AMap m ∧ m !! "code" = Some (AFloat64 f) ∧
    (f == inject_Z z)%Q ∧ in_int z = true.

Definition Endpoint (endpoint : any) : Prop :=
  ∃ (m : gmap string any) (responses : list any),
    endpoint = AMap m ∧ m !! "response" = Some (ASlice responses) ∧
    Forall Response responses.

(** A status range is a pair. *)
Definition StatusRange (statusRange : list Z) : Prop :=
  length statusRange = 2%nat.

(** [start <= code <= end] for one of the ranges, on the code as it is in
    the document. *)
Definition code_in_range (f : Q) (statusRange : list Z) : bool :=
  match statusRange with
  | [start; end_] => Qle_bool (inject_Z start) f && Qle_bool f (inject_Z end_)
  | _ => false
  end.

Definition in_a_range (statusRanges : list (list Z)) (response : any)
    : bool :=
  match response with
  | AMap m =>
      match m !! "code" with
      | Some (AFloat64 f) => existsb (code_in_range f) statusRanges
      | _ => false
      end
  | _ => false
  end.

(** An endpoint with, of its responses, those in a range, in their order. *)
Definition filtered_endpoint (statusRanges : list (list Z)) (endpoint : any)
    : any :=
  match endpoint with
  | AMap m =>
      match m !! "response" with
      | Some (ASlice responses) =>
          AMap (<["response" :=
                    ASlice (List.filter (in_a_range statusRanges) responses)]>
                  m)
      | _ => endpoint
      end
  | _ => endpoint
  end.

(** A collection with one endpoint and the responses 200, 301, 404 and 250,
    and what the ranges [[200,299]] leave of it. *)
Definition sample_response (code : Z) (name : string) : any :=
  AMap {[ "code" := AFloat64 (inject_Z code); "name" := AString name ]}.

Definition sample_endpoints : list any :=
  [AMap {[ "name" := AString "Get user";
           "response" := ASlice [sample_response 200 "OK";
                                 sample_response 301 "Moved";
                                 sample_response 404 "Not found";
                                 sample_response 250 "Odd"] ]}].

Definition sample_collection : gmap string any :=
  {[ "info" := AMap {[ "name" := AString "Users";
                       "schema" := AString collection_schema ]};
     "item" := ASlice sample_endpoints ]}.

Definition sample_filtered : gmap string any :=
  {[ "info" := AMap {[ "name" := AString "Users";
                       "schema" := AString collection_schema ]};
     "item" := ASlice
       [AMap {[ "name" := AString "Get user";
                "response" := ASlice [sample_response 200 "OK";
                                      sample_response 250 "Odd"] ]}] ]}.

(** The directory of the tests of utils.go, in which LICENSE and README.md
    exist. *)
Definition test_world : World :=
  mkWorld {[ "LICENSE" := "Apache License"; "README.md" := "# pm2md" ]}
    ∅ ∅ true "".

(** The base name of the generated file: the formatted name of the
    collection, or collection when that is empty. *)
Definition base_name (FormatFileName : string → string)
    (collectionName : string) : string :=
  if decide (FormatFileName collectionName = "") then "collection"
  else FormatFileName collectionName.

(** A directory in which a file named - exists, and a template whose
    execution fails after it has written the title. *)
Definition dash_world : World :=
  mkWorld {[ "-" := "notes"; "LICENSE" := "Apache License" ]} ∅ ∅ true "".

Definition failing_Execute (tmplName tmplStr : string)
    (collection : gmap string any) : string * option string :=
  ("# Users", Some "can't evaluate field x in type interface {}").

(** The inner loop as a filter on the list, with the panics of the loop. *)
Fixpoint kept_responses (statusRanges : list (list Z)) (responses : list any)
    : go (list any) :=
  match responses with
  | [] => Ret []
  | responseAny :: rest =>
      response ← assert_map responseAny;
      inRange ← response_inRange response statusRanges;
      kept ← kept_responses statusRanges rest;
      Ret (if inRange : bool then responseAny :: kept else kept)
  end.

(** A range as [parseStatusRanges] returns them: two bounds, neither
    negative nor above the greatest [int]. *)
Definition bounds_pair (r : list Z) : Prop :=
  ∃ start end_ : Z,
    r = [start; end_] ∧ 0 <= start <= maxInt ∧ 0 <= end_ <= maxInt.

(** ** What the filter reads of a collection

    The keys and dynamic types that [filterResponsesByStatus] asserts without
    a check, with any number as the code, and the filter on the code as the
    loop compares it, after the conversion [int(...)]. *)
Definition filterable_response (response : any) : Prop :=
  ∃ (m : gmap string any) (f : Q),
    response = AMap m ∧ m !! "code" = Some (AFloat64 f).

Definition filterable_endpoint (endpoint : any) : Prop :=
  ∃ (m : gmap string any) (responses : list any),
    endpoint = AMap m ∧ m !! "response" = Some (ASlice responses) ∧
    Forall filterable_response responses.

Definition filterable (collection : gmap string any) : Prop :=
  ∃ endpoints : list any,
    collection !! "item" = Some (ASlice endpoints) ∧
    Forall filterable_endpoint endpoints.

Definition int_in_range (code : Z) (statusRange : list Z) : bool :=
  match statusRange with
  | [start; end_] => (start <=? code) && (code <=? end_)
  | _ => false
  end.

Definition int_code_in_a_range (statusRanges : list (list Z))
    (response : any) : bool :=
  match response with
  | AMap m =>
      match m !! "code" with
      | Some (AFloat64 f) =>
          existsb (int_in_range (int_of_float64 f)) statusRanges
      | _ => false
      end
  | _ => false
  end.

(** An endpoint with, of its responses, those that a test keeps. *)
Definition endpoint_with (keep : any → bool) (endpoint : any) : any :=
  match endpoint with
  | AMap m =>
      match m !! "response" with
      | Some (ASlice responses) =>
          AMap (<["response" := ASlice (List.filter keep responses)]> m)
      | _ => endpoint
      end
  | _ => endpoint
  end.

(** An endpoint whose responses are some of the responses it had, in their
    order, and whose other keys are as they were. *)
Definition endpoint_shrinks (endpoint endpoint' : any) : Prop :=
  ∃ (m : gmap string any) (responses kept : list any),
    endpoint = AMap m ∧ m !! "response" = Some (ASlice responses) ∧
    kept `sublist_of` responses ∧
    endpoint' = AMap (<["response" := ASlice kept]> m).

(** A collection with the codes 299.5 and 300.5, and one whose only item is a
    folder, which has items and no responses. *)
Definition fraction_collection : gmap string any :=
  {[ "item" := ASlice
       [AMap {[ "response" := ASlice
                  [AMap {[ "code" := AFloat64 (2995 # 10) ]};
                   AMap {[ "code" := AFloat64 (3005 # 10) ]}] ]}] ]}.

Definition folder_collection : gmap string any :=
  {[ "item" := ASlice
       [AMap {[ "name" := AString "Users"; "item" := ASlice [] ]}] ]}.

(** A decoder under which the bytes of the sample decode to the sample
    collection, a template that always parses, and an execution that writes
    the title and succeeds. *)
Definition sample_Unmarshal (jsonBytes : string)
    : gmap string any * option string :=
  (sample_collection, None).

Definition parsing_Parse (tmplName tmplStr : string) : option string := None.

Definition title_Execute (tmplName tmplStr : string)
    (collection : gmap string any) : string * option string :=
  ("# Users", None).

(** ** The command line: argsFunc *)

(** The errors of [argsFunc]: the two of cobra's [MinimumNArgs] and
    [MaximumNArgs], with the bound and the number of arguments received, and
    the two that [argsFunc] builds, with the argument they name. *)
Inductive args_error : Type :=
  | ErrMinimumNArgs (n received : nat)
  | ErrMaximumNArgs (n received : nat)
  | ErrNotJson (arg : string)
  | ErrNotTmpl (customTmplPath : string).

Definition cobra_MinimumNArgs (n : nat) (args : list string)
    : option args_error :=
  if (length args <? n)%nat then Some (ErrMinimumNArgs n (length args))
  else None.

Definition cobra_MaximumNArgs (n : nat) (args : list string)
    : option args_error :=
  if (n <? length args)%nat then Some (ErrMaximumNArgs n (length args))
  else None.

(** [s[n:]]. *)
Fixpoint string_drop (n : nat) (s : string) : string :=
  match n, s with
  | O, _ => s
  | S n', String _ s' => string_drop n' s'
  | S _, EmptyString => EmptyString
  end.

(** [strings.HasSuffix(s, suffix)]:
    [len(s) >= len(suffix) && s[len(s)-len(suffix):] == suffix]. *)
Definition strings_HasSuffix (s suffix : string) : bool :=
  (String.length suffix <=? String.length s)%nat &&
  String.eqb (string_drop (String.length s - String.length suffix) s) suffix.

Definition is_ascii_byte (c : ascii) : bool := (nat_of_ascii c <? 128)%nat.

Fixpoint is_ascii (s : string) : bool :=
  match s with
  | EmptyString => true
  | String c s' => is_ascii_byte c && is_ascii s'
  end.

Definition lower_byte (c : ascii) : ascii :=
  let n := nat_of_ascii c in
  if (65 <=? n)%nat && (n <=? 90)%nat then ascii_of_nat (n + 32) else c.

Fixpoint lower_bytes (s : string) : string :=
  match s with
  | EmptyString => EmptyString
  | String c s' => String (lower_byte c) (lower_bytes s')
  end.

(** [strings.ToLower(s)]: on a string of ASCII bytes the letters A-Z are
    lowered byte by byte; any other string goes through
    [strings.Map(unicode.ToLower, s)], which is the parameter. *)
Definition strings_ToLower (unicode_ToLower : string → string) (s : string)
    : string :=
  if is_ascii s then lower_bytes s else unicode_ToLower s.

Section ArgsFunc.

Variable unicode_ToLower : string → string.

(** The flags [GetTemplate] and [CustomTmplPath] are package variables in the
    source; they are arguments here. The result is the error, [None] for
    nil. *)
Definition argsFunc (GetTemplate : bool) (CustomTmplPath : string)
    (args : list string) : go (option args_error) :=
  if (length args =? 0)%nat && GetTemplate then Ret None
  else
    match cobra_MinimumNArgs 1 args with
    | Some err => Ret (Some err)
    | None =>
        match cobra_MaximumNArgs 2 args with
        | Some err => Ret (Some err)
        | None =>
            arg0 ← index args 0;
            if negb (String.eqb arg0 "-") &&
               negb (strings_HasSuffix
                       (strings_ToLower unicode_ToLower arg0) ".json")
            then Ret (Some (ErrNotJson arg0))
            else if (0 <? String.length CustomTmplPath)%nat &&
                    negb (strings_HasSuffix CustomTmplPath ".tmpl")
            then Ret (Some (ErrNotTmpl CustomTmplPath))
            else Ret None
        end
    end.

End ArgsFunc.

(** ** loadTmpl *)

(** [os.ReadFile(name)] on the files of the world: the contents, or the cause
    of the error when no file exists at the path. *)
Definition os_ReadFile (w : World) (name : string) : string * option string :=
  match files w !! name with
  | Some contents => (contents, None)
  | None => ("", Some ("open " +:+ name +:+ ": no such file or directory"))
  end.

Definition backslash : ascii := "092".

(** [strings.ReplaceAll(s, old, new)] for [old] and [new] of one byte. *)
Fixpoint strings_ReplaceAll (s : string) (old new : ascii) : string :=
  match s with
  | EmptyString => EmptyString
  | String c s' =>
      String (if Ascii.eqb c old then new else c)
        (strings_ReplaceAll s' old new)
  end.

(** The first loop of [path.Base]: the path without its trailing slashes. *)
Fixpoint strip_trailing_slashes (path : string) : string :=
  match path with
  | EmptyString => EmptyString
  | String c rest =>
      match strip_trailing_slashes rest with
      | EmptyString => if Ascii.eqb c "/" then EmptyString else String c ""
      | stripped => String c stripped
      end
  end.

(** [path[lastSlash(path)+1:]]: what follows the last slash, the path itself
    when it has none. *)
Fixpoint after_last_slash (path : string) : string :=
  match path with
  | EmptyString => EmptyString
  | String c rest =>
      if (0 <? count_char "/" rest)%nat then after_last_slash rest
      else if Ascii.eqb c "/" then rest
      else path
  end.

(** [path.Base(path)]. *)
Definition path_Base (path : string) : string :=
  if String.eqb path "" then "."
  else
    let path := after_last_slash (strip_trailing_slashes path) in
    if String.eqb path "" then "/" else path.

Definition defaultTmplName : string := "default.tmpl".

Section LoadTmpl.

(** The text of default.tmpl, which go:embed puts in [defaultTmplStr]; the
    file is not among the sources. *)
Variable defaultTmplStr : string.

(** The results are the name, the text and the cause of the error. *)
Definition loadTmpl (w : World) (customTmplPath : string)
    : string * string * option string :=
  if (0 <? String.length customTmplPath)%nat then
    let '(tmplBytes, err) := os_ReadFile w customTmplPath in
    match err with
    | Some cause => ("", "", Some cause)
    | None =>
        (path_Base (strings_ReplaceAll customTmplPath backslash "/"),
         tmplBytes, None)
    end
  else (defaultTmplName, defaultTmplStr, None).

End LoadTmpl.

(** ** The command: Run *)

(** A line on the standard error: an error of the program, the cause of an
    error of the library, or the report of a created file. *)
Inductive stderr_line : Type :=
  | PrintError (err : error)
  | PrintCause (cause : string)
  | PrintCreated (fileName : string).

(** The package variables that the flags set. *)
Record Flags : Type := mkFlags {
  Statuses : string;
  CustomTmplPath : string;
  GetTemplate : bool;
  ConfirmReplaceExistingFile : bool;
}.

Section Run.

Variable json_Unmarshal : string → gmap string any * option string.
Variable FormatFileName : string → string.
Variable template_Parse : string → string → option string.
Variable template_Execute :
  string → string → gmap string any → string * option string.
Variable defaultTmplStr : string.

(** [ScanStdin] and [exportDefaultTemplate] of the package, which are not
    among the sources: what the first returns, the bytes and the cause of the
    error, and what the second does to the world, with the name it returns. *)
Variable ScanStdin : string * option string.
Variable exportDefaultTemplate : World → go (World * string).

(** The function of [rootCmd.Run]. The result is the world, the lines written
    to the standard error and the status of [os.Exit], [None] when the
    function returns. *)
Definition Run (w : World) (flags : Flags) (args : list string)
    : go (World * list stderr_line * option Z) :=
  '(w, printed, exited) ←
    (if GetTemplate flags then
       '(w, fileName) ← exportDefaultTemplate w;
       Ret (w, [PrintCreated fileName], (length args =? 0)%nat)
     else Ret (w, [], false));
  if exited : bool then Ret (w, printed, Some 0)
  else
    jsonFilePath ← index args 0;
    destName ← (if (length args =? 2)%nat then index args 1 else Ret "");
    '(statusRanges, err) ← parseStatusRanges (Statuses flags);
    match err with
    | Some err => Ret (w, printed ++ [PrintError err], Some 1)
    | None =>
        let '(jsonBytes, err) :=
          if String.eqb jsonFilePath "-" then ScanStdin
          else os_ReadFile w jsonFilePath in
        match err with
        | Some cause => Ret (w, printed ++ [PrintCause cause], Some 1)
        | None =>
            let '(tmplName, tmplStr, err) :=
              loadTmpl defaultTmplStr w (CustomTmplPath flags) in
            match err with
            | Some cause => Ret (w, printed ++ [PrintCause cause], Some 1)
            | None =>
                '(w, (destName, err)) ←
                  jsonToMdFile json_Unmarshal FormatFileName template_Parse
                    template_Execute w jsonBytes destName tmplName tmplStr
                    statusRanges (ConfirmReplaceExistingFile flags);
                match err with
                | Some err => Ret (w, printed ++ [PrintError err], Some 1)
                | None =>
                    if negb (String.eqb destName "-") then
                      Ret (w, printed ++ [PrintCreated destName], None)
                    else Ret (w, printed, None)
                end
            end
        end
    end.

End Run.

(** * Properties *)

(** ** Strings *)

#[local] Arguments String.append !_ _ / : simpl nomatch.
#[local] Arguments in_int : simpl never.

Lemma append_nil_r (s : string) : s +:+ "" = s.
Proof. induction s as [|c s IH]; simpl; congruence. Qed.

Lemma append_assoc (s1 s2 s3 : string) :
  (s1 +:+ s2) +:+ s3 = s1 +:+ (s2 +:+ s3).
Proof. induction s1 as [|c s1 IH]; simpl; congruence. Qed.

Lemma count_char_app (c : ascii) (s1 s2 : string) :
  count_char c (s1 +:+ s2) = (count_char c s1 + count_char c s2)%nat.
Proof. induction s1 as [|c' s1 IH]; simpl; [done|]. rewrite IH. lia. Qed.

Lemma no_char_app (c : ascii) (s1 s2 : string) :
  no_char c (s1 +:+ s2) ↔ no_char c s1 ∧ no_char c s2.
Proof. unfold no_char. rewrite count_char_app. lia. Qed.

Lemma no_char_cons (c c' : ascii) (s : string) :
  no_char c (String c' s) ↔ c' ≠ c ∧ no_char c s.
Proof.
  unfold no_char. simpl. destruct (Ascii.eqb_spec c' c); split.
  - lia.
  - intros [? _]. done.
  - intros. split; [done | lia].
  - intros [_ ?]. lia.
Qed.

Lemma Split_not_nil (s : string) (sep : ascii) : strings_Split s sep ≠ [].
Proof.
  destruct s as [|c s]; simpl; [done|].
  destruct (Ascii.eqb c sep); [done|]. by destruct (strings_Split s sep).
Qed.

Lemma Split_length (s : string) (sep : ascii) :
  length (strings_Split s sep) = S (count_char sep s).
Proof.
  induction s as [|c s IH]; simpl; [done|].
  destruct (Ascii.eqb c sep); simpl; [by rewrite IH|].
  destruct (strings_Split s sep); simpl in *; lia.
Qed.

Lemma Split_no_sep (s : string) (sep : ascii) :
  no_char sep s → strings_Split s sep = [s].
Proof.
  induction s as [|c s IH]; [done|].
  intros [Hc Hs]%no_char_cons. simpl.
  apply Ascii.eqb_neq in Hc. rewrite Hc, (IH Hs). done.
Qed.

Lemma Split_app (s1 s2 : string) (sep : ascii) :
  no_char sep s1 →
  strings_Split (s1 +:+ String sep s2) sep = s1 :: strings_Split s2 sep.
Proof.
  induction s1 as [|c s1 IH]; simpl.
  - intros _. by rewrite Ascii.eqb_refl.
  - intros [Hc Hs]%no_char_cons. apply Ascii.eqb_neq in Hc.
    rewrite Hc, (IH Hs). done.
Qed.

Lemma Split_pieces (s : string) (sep : ascii) :
  Forall (no_char sep) (strings_Split s sep).
Proof.
  induction s as [|c s IH]; simpl.
  - by repeat constructor.
  - destruct (Ascii.eqb_spec c sep) as [->|Hne].
    + by constructor.
    + destruct (strings_Split s sep) as [|p ps].
      * repeat constructor. apply no_char_cons. done.
      * inversion_clear IH. constructor; [|done]. by apply no_char_cons.
Qed.

Lemma join_Split (s : string) (sep : ascii) :
  join sep (strings_Split s sep) = s.
Proof.
  induction s as [|c s IH]; simpl; [done|].
  pose proof (Split_not_nil s sep) as Hnil.
  destruct (Ascii.eqb_spec c sep) as [->|Hne].
  - simpl. destruct (strings_Split s sep) as [|p ps]; [done|].
    simpl in *. by rewrite IH.
  - destruct (strings_Split s sep) as [|p ps]; [done|].
    destruct ps as [|p' ps]; simpl in *; by rewrite <- IH.
Qed.

Lemma Split_snoc (s : string) (sep : ascii) :
  strings_Split (s +:+ String sep "") sep = strings_Split s sep ++ [""].
Proof.
  induction s as [|c s IH]; simpl.
  - by rewrite Ascii.eqb_refl.
  - rewrite IH. destruct (Ascii.eqb c sep); [done|].
    pose proof (Split_not_nil s sep).
    by destruct (strings_Split s sep).
Qed.

(** ** strconv.Atoi on the integers of the grammar *)

Lemma atoi_digits_snoc (n : Z) (s : string) (c : ascii) :
  atoi_digits n (s +:+ String c "") =
    v ← atoi_digits n s;
    if is_digit c then Some (v * 10 + digit_value c) else None.
Proof.
  revert n. induction s as [|c' s IH]; intros n; simpl.
  - by destruct (is_digit c).
  - destruct (is_digit c'); [apply IH | done].
Qed.

Lemma INT_atoi_digits (s : string) (n : Z) :
  INT s n → atoi_digits 0 s = Some n.
Proof.
  induction 1 as [c Hc | s n c _ IH Hc].
  - simpl. by rewrite Hc.
  - rewrite atoi_digits_snoc, IH. simpl. by rewrite Hc.
Qed.

Lemma INT_head (s : string) (n : Z) :
  INT s n → ∃ c s', s = String c s' ∧ is_digit c = true.
Proof.
  induction 1 as [c Hc | s n c _ (c' & s' & -> & Hc') Hc]; simpl; eauto.
Qed.

Lemma digit_value_nonneg (c : ascii) : is_digit c = true → 0 <= digit_value c.
Proof.
  unfold is_digit, digit_value.
  intros [H _]%andb_true_iff. apply Nat.leb_le in H. lia.
Qed.

Lemma INT_nonneg (s : string) (n : Z) : INT s n → 0 <= n.
Proof.
  induction 1 as [c Hc | s n c _ IH Hc];
    apply digit_value_nonneg in Hc; lia.
Qed.

Lemma INT_no_char (s : string) (n : Z) (c : ascii) :
  INT s n → is_digit c = false → no_char c s.
Proof.
  intros HINT Hc. induction HINT as [c' Hc' | s n c' _ IH Hc'].
  - apply no_char_cons. split; [congruence | done].
  - apply no_char_app. split; [done|].
    apply no_char_cons. split; [congruence | done].
Qed.

Lemma Atoi_INT (s : string) (n : Z) :
  INT s n → n <= maxInt → strconv_Atoi s = Some n.
Proof.
  intros HINT Hmax.
  pose proof (INT_nonneg _ _ HINT) as Hpos.
  pose proof (INT_atoi_digits _ _ HINT) as Hdigits.
  destruct (INT_head _ _ HINT) as (c & s' & -> & Hc).
  unfold strconv_Atoi.
  assert (Ascii.eqb c "-" = false) as ->
    by (apply Ascii.eqb_neq; intros ->; done).
  assert (Ascii.eqb c "+" = false) as ->
    by (apply Ascii.eqb_neq; intros ->; done).
  cbv beta iota zeta. simpl orb. cbv iota.
  rewrite Hdigits. simpl.
  unfold in_int.
  assert (minInt <= n) by (unfold minInt, intSize; simpl; lia).
  destruct (Z.leb_spec minInt n); [|lia].
  destruct (Z.leb_spec n maxInt); [done | lia].
Qed.

Lemma Atoi_empty : strconv_Atoi "" = None.
Proof. reflexivity. Qed.

Lemma in_int_iff (z : Z) : in_int z = true ↔ minInt <= z <= maxInt.
Proof. unfold in_int. rewrite andb_true_iff, !Z.leb_le. done. Qed.

Lemma atoi_digits_INT (s p : string) (m n : Z) :
  INT p m → atoi_digits m s = Some n → INT (p +:+ s) n.
Proof.
  revert p m. induction s as [|c s IH]; intros p m Hp; simpl.
  - intros [= <-]. by rewrite append_nil_r.
  - destruct (is_digit c) eqn:Hc; [|done]. intros Hs.
    change (String c s) with (String c "" +:+ s).
    rewrite <- append_assoc. eapply IH; [|done]. by constructor.
Qed.

Lemma atoi_digits_0_INT (s : string) (n : Z) :
  s ≠ "" → atoi_digits 0 s = Some n → INT s n.
Proof.
  destruct s as [|c s]; [done|]. intros _. simpl.
  destruct (is_digit c) eqn:Hc; [|done].
  apply (atoi_digits_INT s (String c "")). by constructor.
Qed.

(** [strconv.Atoi] accepts the integers that fit [int], and nothing else. *)
Lemma Atoi_Some_iff (s : string) (z : Z) :
  strconv_Atoi s = Some z ↔ is_integer s z.
Proof.
  unfold is_integer. rewrite <- in_int_iff. split.
  - unfold strconv_Atoi. destruct s as [|c s]; [done|].
    destruct (Ascii.eqb_spec c "-") as [->|Hminus]; simpl orb; cbv iota.
    + destruct s as [|c' s']; [done|].
      destruct (atoi_digits 0 (String c' s')) as [n|] eqn:Hn; [|done].
      simpl. destruct (in_int (- n)) eqn:Hint; [|done]. intros [= <-].
      split; [|done]. apply literal_minus. by apply atoi_digits_0_INT.
    + destruct (Ascii.eqb_spec c "+") as [->|Hplus]; cbv iota.
      * destruct s as [|c' s']; [done|].
        destruct (atoi_digits 0 (String c' s')) as [n|] eqn:Hn; [|done].
        simpl. destruct (in_int n) eqn:Hint; [|done]. intros [= <-].
        split; [|done]. apply literal_plus. by apply atoi_digits_0_INT.
      * destruct (atoi_digits 0 (String c s)) as [n|] eqn:Hn; [|done].
        simpl. destruct (in_int n) eqn:Hint; [|done]. intros [= <-].
        split; [|done]. apply literal_unsigned. by apply atoi_digits_0_INT.
  - intros [[s' n HINT | s' n HINT | s' n HINT] Hint].
    + apply Atoi_INT; [done|]. apply in_int_iff in Hint. lia.
    + unfold strconv_Atoi. simpl.
      destruct (INT_head _ _ HINT) as (c & s'' & -> & _).
      rewrite (INT_atoi_digits _ _ HINT). simpl. by rewrite Hint.
    + unfold strconv_Atoi. simpl.
      destruct (INT_head _ _ HINT) as (c & s'' & -> & _).
      rewrite (INT_atoi_digits _ _ HINT). simpl. by rewrite Hint.
Qed.

Lemma Atoi_None_iff (s : string) : strconv_Atoi s = None ↔ not_integer s.
Proof.
  unfold not_integer. split.
  - intros Hnone z Hz%Atoi_Some_iff. congruence.
  - intros Hnot. destruct (strconv_Atoi s) as [z|] eqn:Hz; [|done].
    by destruct (Hnot z); apply Atoi_Some_iff.
Qed.

(** ** parseStatusRanges: the loop and its body *)

Lemma parseStatusRange_total (t : string) :
  parseStatusRange t = Ret (range_of_token t).
Proof.
  unfold parseStatusRange, range_of_token.
  pose proof (Split_not_nil t "-") as Hnil.
  destruct (strings_Split t "-") as [|s0 [|s1 [|s2 pieces]]]; try done; simpl.
  - by destruct (strconv_Atoi s0).
  - destruct (strconv_Atoi s0); [|done]. by destruct (strconv_Atoi s1).
Qed.

Lemma parseStatusRanges_loop_eq (ts : list string) (done_ : list (list Z)) :
  parseStatusRanges_loop (length done_) ts
      (done_ ++ replicate (length ts) []) =
    Ret match ranges_of_tokens ts with
        | inl err => (None, Some err)
        | inr rs => (Some (done_ ++ rs), None)
        end.
Proof.
  revert done_. induction ts as [|t ts IH]; intros done_; simpl.
  - done.
  - rewrite parseStatusRange_total. simpl.
    destruct (range_of_token t) as [err|r]; [done|].
    replace (<[length done_ := r]> (done_ ++ [] :: replicate (length ts) []))
      with ((done_ ++ [r]) ++ replicate (length ts) []).
    + replace (S (length done_)) with (length (done_ ++ [r]))
        by (rewrite length_app; simpl; lia).
      rewrite IH. destruct (ranges_of_tokens ts); [done|].
      by rewrite <- app_assoc.
    + rewrite <- app_assoc. simpl.
      rewrite insert_app_r_alt by lia. by rewrite Nat.sub_diag.
Qed.

Lemma parseStatusRanges_eq (e : string) :
  parseStatusRanges e =
    Ret (if decide (e = "") then (None, None)
         else match ranges_of_tokens (strings_Split e ",") with
              | inl err => (None, Some err)
              | inr rs => (Some rs, None)
              end).
Proof.
  unfold parseStatusRanges. destruct e as [|c e]; [done|].
  rewrite decide_False by done.
  change (String.length (String c e) =? 0)%nat with false. cbv iota zeta.
  apply (parseStatusRanges_loop_eq _ []).
Qed.

(** ** Tokens: well-formed and malformed *)

Lemma range_token_ok (t : string) (r : list Z) :
  range_token t r → range_of_token t = inr r.
Proof.
  intros [s n HINT Hmax | s1 s2 n m H1 H2 Hn Hm]; unfold range_of_token.
  - rewrite Split_no_sep by (by eapply INT_no_char).
    by rewrite (Atoi_INT _ _ HINT Hmax).
  - change (s1 +:+ "-" +:+ s2) with (s1 +:+ String "-" s2).
    rewrite Split_app by (by eapply INT_no_char).
    rewrite Split_no_sep by (by eapply INT_no_char).
    by rewrite (Atoi_INT _ _ H1 Hn), (Atoi_INT _ _ H2 Hm).
Qed.

Lemma range_token_no_comma (t : string) (r : list Z) :
  range_token t r → no_char "," t.
Proof.
  intros [s n HINT Hmax | s1 s2 n m H1 H2 Hn Hm].
  - by eapply INT_no_char.
  - apply no_char_app. split; [by eapply INT_no_char|].
    apply no_char_app. split; [done | by eapply INT_no_char].
Qed.

Lemma range_token_not_empty (t : string) (r : list Z) :
  range_token t r → t ≠ "".
Proof.
  intros [s n HINT Hmax | s1 s2 n m H1 H2 Hn Hm].
  - by destruct (INT_head _ _ HINT) as (c & s' & -> & _).
  - by destruct (INT_head _ _ H1) as (c & s' & -> & _).
Qed.

Lemma range_expr_ok (e : string) (rs : list (list Z)) :
  range_expr e rs →
  e ≠ "" ∧ ranges_of_tokens (strings_Split e ",") = inr rs.
Proof.
  induction 1 as [t r Ht | t e r rs Ht _ [_ IH]].
  - split; [by eapply range_token_not_empty|].
    rewrite Split_no_sep by (by eapply range_token_no_comma).
    simpl. by rewrite (range_token_ok _ _ Ht).
  - split.
    + apply range_token_not_empty in Ht. by destruct t.
    + change (t +:+ "," +:+ e) with (t +:+ String "," e).
      rewrite Split_app by (by eapply range_token_no_comma).
      simpl. by rewrite (range_token_ok _ _ Ht), IH.
Qed.

Lemma token_error_sound (t : string) (err : error) :
  token_error t err → range_of_token t = inl err.
Proof.
  intros [t' Hdashes | s0 H0 Hatoi%Atoi_None_iff
         | s0 s1 H0 H1 Hatoi%Atoi_None_iff
         | s0 s1 start H0 H1 Hatoi0%Atoi_Some_iff Hatoi1%Atoi_None_iff];
    unfold range_of_token.
  - pose proof (Split_length t' "-") as Hlen.
    destruct (strings_Split t' "-") as [|p0 [|p1 [|p2 ps]]];
      simpl in Hlen; try lia. done.
  - by rewrite Split_no_sep, Hatoi.
  - change (s0 +:+ "-" +:+ s1) with (s0 +:+ String "-" s1).
    by rewrite Split_app, Split_no_sep, Hatoi.
  - change (s0 +:+ "-" +:+ s1) with (s0 +:+ String "-" s1).
    by rewrite Split_app, Split_no_sep, Hatoi0, Hatoi1.
Qed.

Lemma token_error_complete (t : string) (err : error) :
  range_of_token t = inl err → token_error t err.
Proof.
  unfold range_of_token.
  pose proof (Split_length t "-") as Hlen.
  pose proof (Split_pieces t "-") as Hpieces.
  pose proof (join_Split t "-") as Hjoin.
  destruct (strings_Split t "-") as [|s0 [|s1 [|s2 ps]]]; simpl in *.
  - lia.
  - subst s0. inversion_clear Hpieces as [|?? H0 _].
    destruct (strconv_Atoi t) eqn:Hatoi; [done|].
    intros [= <-]. constructor; [done | by apply Atoi_None_iff].
  - inversion_clear Hpieces as [|?? H0 Hrest].
    inversion_clear Hrest as [|?? H1 _]. subst t.
    destruct (strconv_Atoi s0) eqn:Hatoi0.
    + destruct (strconv_Atoi s1) eqn:Hatoi1; [done|].
      intros [= <-].
      eapply bad_end; [done | done | by apply Atoi_Some_iff
                      | by apply Atoi_None_iff].
    + intros [= <-]. apply bad_start; [done | done | by apply Atoi_None_iff].
  - intros [= <-]. constructor. lia.
Qed.

Lemma malformed_iff (t : string) :
  malformed t ↔ ∃ err, range_of_token t = inl err.
Proof.
  split; intros [err H]; exists err;
    [by apply token_error_sound | by apply token_error_complete].
Qed.

Lemma ranges_of_tokens_some_malformed (ts : list string) (t : string) :
  t ∈ ts → malformed t → ∃ err, ranges_of_tokens ts = inl err.
Proof.
  intros Hin [err Herr]%malformed_iff.
  induction ts as [|t' ts IH]; [by apply elem_of_nil in Hin|].
  simpl. apply elem_of_cons in Hin as [<- | Hin].
  - rewrite Herr. eauto.
  - destruct (range_of_token t'); [eauto|].
    destruct (IH Hin) as [err' ->]. eauto.
Qed.

Lemma ranges_of_tokens_first_malformed (pre post : list string) (t : string)
    (err : error) :
  Forall (λ p, ¬ malformed p) pre → token_error t err →
  ranges_of_tokens (pre ++ t :: post) = inl err.
Proof.
  intros Hpre Herr%token_error_sound.
  induction Hpre as [|p pre Hp _ IH]; simpl.
  - by rewrite Herr.
  - destruct (range_of_token p) as [err'|r] eqn:Hr.
    + destruct Hp. apply malformed_iff. eauto.
    + by rewrite IH.
Qed.

Lemma dash_at_an_end_malformed (t : string) :
  dash_at_an_end t → malformed t.
Proof.
  intros Ht. apply malformed_iff. unfold range_of_token.
  destruct Ht as [-> | [[rest ->] | [rest ->]]].
  - simpl. by eexists.
  - simpl. pose proof (Split_not_nil rest "-").
    destruct (strings_Split rest "-") as [|p [|q ps]]; [done|..]; by eexists.
  - rewrite Split_snoc. pose proof (Split_not_nil rest "-").
    destruct (strings_Split rest "-") as [|p [|q ps]]; [done|..]; simpl.
    + destruct (strconv_Atoi p); by eexists.
    + destruct ps; by eexists.
Qed.

(** ** parseStatusRanges: the claims *)

(** C5. Every well-formed expression is mapped to the list of its inclusive
    ranges, in the order of the tokens: a token N gives [N, N], a token N-M
    gives [N, M] whatever the order of the bounds; so "200" gives [[200,200]],
    "200-299,400-499" gives [[200,299],[400,499]] and "299-200" gives
    [[299,200]]. The empty string gives the nil slice and the nil error, with
    which nothing is filtered. *)
Theorem parseStatusRanges_well_formed :
  (∀ (e : string) (rs : list (list Z)),
     range_expr e rs → parseStatusRanges e = Ret (Some rs, None)) ∧
  (∀ (s : string) (n : Z),
     INT s n → n <= maxInt → parseStatusRanges s = Ret (Some [[n; n]], None)) ∧
  (∀ (s1 s2 : string) (n m : Z),
     INT s1 n → INT s2 m → n <= maxInt → m <= maxInt →
     parseStatusRanges (s1 +:+ "-" +:+ s2) = Ret (Some [[n; m]], None)) ∧
  parseStatusRanges "200" = Ret (Some [[200; 200]], None) ∧
  parseStatusRanges "200-299,400-499" =
    Ret (Some [[200; 299]; [400; 499]], None) ∧
  parseStatusRanges "299-200" = Ret (Some [[299; 200]], None) ∧
  parseStatusRanges "" = Ret (None, None) ∧
  (∀ collection : gmap string any,
     filterResponsesByStatus collection None = Ret collection).
Proof.
  assert (∀ e rs, range_expr e rs → parseStatusRanges e = Ret (Some rs, None))
    as Hexpr.
  { intros e rs [Hne Htokens]%range_expr_ok.
    rewrite parseStatusRanges_eq, decide_False by done. by rewrite Htokens. }
  split; [done|]. split; [|split].
  - intros s n HINT Hmax. apply Hexpr. by do 2 constructor.
  - intros s1 s2 n m H1 H2 Hn Hm. apply Hexpr. by do 2 constructor.
  - by vm_compute.
Qed.

Lemma parseStatusRanges_well_formed_witness :
  range_expr "200-299,400-499" [[200; 299]; [400; 499]] ∧
  parseStatusRanges "200-299,400-499" =
    Ret (Some [[200; 299]; [400; 499]], None).
Proof.
  assert (∀ a b c : ascii,
    is_digit a = true → is_digit b = true → is_digit c = true →
    INT (String a (String b (String c "")))
      ((digit_value a * 10 + digit_value b) * 10 + digit_value c)) as H3.
  { intros a b c Ha Hb Hc.
    apply (INT_more (String a (String b "")) _ c); [|done].
    apply (INT_more (String a "") _ b); [|done].
    by apply INT_digit. }
  assert (range_expr "200-299,400-499" [[200; 299]; [400; 499]]) as Hexpr.
  { apply (expr_more "200-299" "400-499").
    - apply (range_interval "200" "299");
        [by apply (H3 "2"%char "0"%char "0"%char)
        |by apply (H3 "2"%char "9"%char "9"%char) | done..].
    - apply expr_last.
      apply (range_interval "400" "499");
        [by apply (H3 "4"%char "0"%char "0"%char)
        |by apply (H3 "4"%char "9"%char "9"%char) | done..]. }
  split; [done|].
  exact (proj1 parseStatusRanges_well_formed _ _ Hexpr).
Defined.

(** C6. Every malformed expression fails, and fails with nothing but the
    error: a token with more than one dash is the format error that names the
    token, a start or an end that is not an integer is the format error that
    names that substring (the error is that of the first malformed token), and
    with an error the returned slice is nil. "200-299-300" and "abc" fail. The
    function never panics. *)
Theorem parseStatusRanges_malformed :
  (∀ (e t : string),
     e ≠ "" → t ∈ strings_Split e "," → malformed t →
     ∃ err, parseStatusRanges e = Ret (None, Some err)) ∧
  (∀ (e t : string) (pre post : list string) (err : error),
     e ≠ "" → strings_Split e "," = pre ++ t :: post →
     Forall (λ p, ¬ malformed p) pre → token_error t err →
     parseStatusRanges e = Ret (None, Some err)) ∧
  (∀ (e : string) (rs : option (list (list Z))) (err : error),
     parseStatusRanges e = Ret (rs, Some err) → rs = None) ∧
  (∀ e : string, parseStatusRanges e ≠ Panic) ∧
  parseStatusRanges "200-299-300" =
    Ret (None, Some (ErrDashes "200-299-300")) ∧
  parseStatusRanges "abc" = Ret (None, Some (ErrNotInteger "abc")) ∧
  parseStatusRanges "200-abc" = Ret (None, Some (ErrNotInteger "abc")).
Proof.
  split; [|split; [|split; [|split]]].
  - intros e t Hne Hin Hbad.
    rewrite parseStatusRanges_eq, decide_False by done.
    destruct (ranges_of_tokens_some_malformed _ _ Hin Hbad) as [err ->].
    by exists err.
  - intros e t pre post err Hne Hsplit Hpre Herr.
    rewrite parseStatusRanges_eq, decide_False, Hsplit by done.
    by rewrite (ranges_of_tokens_first_malformed _ _ _ _ Hpre Herr).
  - intros e rs err. rewrite parseStatusRanges_eq.
    case_decide; [congruence|].
    destruct (ranges_of_tokens _); congruence.
  - intros e. by rewrite parseStatusRanges_eq.
  - by vm_compute.
Qed.

Lemma parseStatusRanges_malformed_witness :
  parseStatusRanges "200,200-299-300,abc" =
    Ret (None, Some (ErrDashes "200-299-300")).
Proof.
  refine (proj1 (proj2 parseStatusRanges_malformed)
            "200,200-299-300,abc" "200-299-300" ["200"] ["abc"] _ _ _ _ _).
  - done.
  - reflexivity.
  - constructor; [|constructor].
    intros [err Herr]. apply token_error_sound in Herr. by vm_compute in Herr.
  - constructor. simpl. lia.
Defined.

(** C10, as the code has it. For every non-empty expression in which some
    comma-separated token is empty or begins or ends with a dash,
    [parseStatusRanges] returns an error and the nil slice. *)
Theorem parseStatusRanges_dash_at_an_end (e t : string) :
  e ≠ "" → t ∈ strings_Split e "," → dash_at_an_end t →
  ∃ err, parseStatusRanges e = Ret (None, Some err).
Proof.
  intros Hne Hin Hdash%dash_at_an_end_malformed.
  rewrite parseStatusRanges_eq, decide_False by done.
  destruct (ranges_of_tokens_some_malformed _ _ Hin Hdash) as [err ->].
  by exists err.
Qed.

Lemma parseStatusRanges_dash_at_an_end_witness :
  ∃ err, parseStatusRanges "200,-100" = Ret (None, Some err).
Proof.
  apply (parseStatusRanges_dash_at_an_end "200,-100" "-100").
  - done.
  - apply elem_of_cons. right. apply elem_of_cons. by left.
  - right. left. by exists "100".
Defined.

(** C10, as it is stated, fails on the empty expression: its one token is
    empty, and the guard on the length returns no error. *)
Lemma parseStatusRanges_empty_expression_no_error :
  "" ∈ strings_Split "" "," ∧ dash_at_an_end "" ∧
  parseStatusRanges "" = Ret (None, None) ∧
  ¬ ∃ err, parseStatusRanges "" = Ret (None, Some err).
Proof.
  split; [apply elem_of_cons; by left|]. split; [by left|]. split; [done|].
  by intros [err Herr].
Qed.

(** ** filterResponsesByStatus: the loops *)

Lemma kept_responses_snoc (statusRanges : list (list Z))
    (responses : list any) (responseAny : any) :
  kept_responses statusRanges (responses ++ [responseAny]) =
    response ← assert_map responseAny;
    inRange ← response_inRange response statusRanges;
    kept ← kept_responses statusRanges responses;
    Ret (if inRange : bool then kept ++ [responseAny] else kept).
Proof.
  induction responses as [|r responses IH]; simpl.
  - destruct (assert_map responseAny) as [|m]; simpl; [done|].
    by destruct (response_inRange m statusRanges) as [|[]].
  - rewrite IH.
    destruct (assert_map r) as [|m], (assert_map responseAny) as [|m'];
      simpl; try done.
    + by destruct (response_inRange m' statusRanges).
    + by destruct (response_inRange m statusRanges).
    + destruct (response_inRange m statusRanges) as [|b],
        (response_inRange m' statusRanges) as [|b']; simpl; try done.
      destruct (kept_responses statusRanges responses); simpl; [done|].
      by destruct b, b'.
Qed.

Lemma filterResponses_loop_eq (statusRanges : list (list Z)) (n : nat) :
  ∀ (endpoint : gmap string any) (responses : list any),
    (n ≤ length responses)%nat →
    endpoint !! "response" = Some (ASlice responses) →
    filterResponses_loop n statusRanges endpoint responses =
      kept ← kept_responses statusRanges (take n responses);
      Ret (<["response" := ASlice (kept ++ drop n responses)]> endpoint).
Proof.
  induction n as [|j IH]; intros endpoint responses Hlen Hresponses.
  - simpl. rewrite drop_0. by rewrite insert_id.
  - destruct (lookup_lt_is_Some_2 responses j) as [r Hr]; [lia|].
    rewrite (take_S_r _ _ _ Hr), kept_responses_snoc. simpl.
    unfold index. rewrite Hr. simpl.
    destruct (assert_map r) as [|m]; simpl; [done|].
    destruct (response_inRange m statusRanges) as [|[]]; simpl; [done|..].
    + rewrite IH by (done || lia).
      destruct (kept_responses statusRanges (take j responses)); simpl;
        [done|].
      rewrite <- app_assoc. simpl. by rewrite <- (drop_S _ _ _ Hr).
    + unfold slices_Delete.
      replace ((j <=? j + 1)%nat && (j + 1 <=? length responses)%nat)
        with true
        by (symmetry; apply andb_true_iff; split; apply Nat.leb_le; lia).
      simpl.
      assert (length (take j responses) = j) as Htake
        by (rewrite length_take; lia).
      rewrite IH.
      * rewrite take_app_length' by done.
        rewrite drop_app_length' by done.
        destruct (kept_responses statusRanges (take j responses)); simpl;
          [done|].
        rewrite insert_insert_eq. by rewrite Nat.add_1_r.
      * rewrite length_app, Htake. lia.
      * by rewrite lookup_insert_eq.
Qed.

Lemma filterResponses_loop_all (statusRanges : list (list Z))
    (endpoint : gmap string any) (responses : list any) :
  endpoint !! "response" = Some (ASlice responses) →
  filterResponses_loop (length responses) statusRanges endpoint responses =
    kept ← kept_responses statusRanges responses;
    Ret (<["response" := ASlice kept]> endpoint).
Proof.
  intros Hresponses. rewrite filterResponses_loop_eq by done.
  rewrite firstn_all, drop_all.
  destruct (kept_responses statusRanges responses); simpl; [done|].
  by rewrite app_nil_r.
Qed.

(** *** On collections of the trusted shape *)

Lemma int_of_float64_whole (f : Q) (z : Z) :
  (f == inject_Z z)%Q → in_int z = true → int_of_float64 f = z.
Proof.
  intros Hf Hz. unfold int_of_float64.
  rewrite (Qfloor_comp _ _ Hf), (Qceiling_comp _ _ Hf), Qfloor_Z, Qceiling_Z.
  destruct (Qle_bool 0 f); by rewrite Hz.
Qed.

Lemma Qle_bool_inject_Z (a b : Z) :
  Qle_bool (inject_Z a) (inject_Z b) = (a <=? b).
Proof.
  apply eq_true_iff_eq. rewrite Qle_bool_iff, Z.leb_le. by rewrite Zle_Qle.
Qed.

Lemma code_in_range_whole (f : Q) (z start end_ : Z) :
  (f == inject_Z z)%Q →
  code_in_range f [start; end_] = (z >=? start) && (z <=? end_).
Proof.
  intros Hf. unfold code_in_range.
  rewrite (Qleb_comp _ _ (reflexivity _) _ _ Hf).
  rewrite (Qleb_comp _ _ Hf _ _ (reflexivity _)).
  by rewrite !Qle_bool_inject_Z, Z.geb_leb.
Qed.

Lemma response_inRange_whole (m : gmap string any) (f : Q) (z : Z)
    (statusRanges : list (list Z)) :
  m !! "code" = Some (AFloat64 f) → (f == inject_Z z)%Q → in_int z = true →
  Forall StatusRange statusRanges →
  response_inRange m statusRanges =
    Ret (existsb (code_in_range f) statusRanges).
Proof.
  intros Hcode Hf Hz. induction 1 as [|statusRange rest Hpair _ IH].
  - done.
  - destruct statusRange as [|start [|end_ [|]]]; try done.
    change (existsb (code_in_range f) ([start; end_] :: rest))
      with (code_in_range f [start; end_] || existsb (code_in_range f) rest).
    rewrite (code_in_range_whole _ _ _ _ Hf).
    simpl response_inRange. unfold map_index. rewrite Hcode. simpl.
    rewrite (int_of_float64_whole _ _ Hf Hz).
    destruct (z >=? start); simpl; [|done].
    by destruct (z <=? end_).
Qed.

Lemma kept_responses_shaped (statusRanges : list (list Z))
    (responses : list any) :
  Forall StatusRange statusRanges → Forall Response responses →
  kept_responses statusRanges responses =
    Ret (List.filter (in_a_range statusRanges) responses).
Proof.
  intros Hranges.
  induction 1 as [|response rest (m & f & z & -> & Hcode & Hf & Hz) _ IH].
  - done.
  - simpl. rewrite (response_inRange_whole _ _ _ _ Hcode Hf Hz Hranges).
    rewrite IH, Hcode. simpl.
    by destruct (existsb (code_in_range f) statusRanges).
Qed.

Lemma filterEndpoints_loop_shaped (statusRanges : list (list Z))
    (endpoints : list any) :
  Forall StatusRange statusRanges → Forall Endpoint endpoints →
  filterEndpoints_loop statusRanges endpoints =
    Ret (map (filtered_endpoint statusRanges) endpoints).
Proof.
  intros Hranges.
  induction 1 as [|endpoint rest (m & responses & -> & Hm & Hresponses) _ IH].
  - done.
  - simpl. unfold map_index. rewrite Hm. simpl.
    rewrite filterResponses_loop_all by done.
    rewrite kept_responses_shaped by done. simpl. by rewrite IH.
Qed.

(** *** In general: idempotence *)

Lemma kept_responses_idemp (statusRanges : list (list Z))
    (responses kept : list any) :
  kept_responses statusRanges responses = Ret kept →
  kept_responses statusRanges kept = Ret kept.
Proof.
  revert kept. induction responses as [|r responses IH]; intros kept; simpl.
  - by intros [= <-].
  - destruct r as [| | | | |m]; try done. simpl.
    destruct (response_inRange m statusRanges) as [|b] eqn:Hb; simpl; [done|].
    destruct (kept_responses statusRanges responses) as [|kept'];
      simpl; [done|].
    intros [= <-]. specialize (IH _ eq_refl). destruct b; [|done].
    simpl. by rewrite Hb, IH.
Qed.

Lemma filterEndpoints_loop_idemp (statusRanges : list (list Z))
    (endpoints endpoints' : list any) :
  filterEndpoints_loop statusRanges endpoints = Ret endpoints' →
  filterEndpoints_loop statusRanges endpoints' = Ret endpoints'.
Proof.
  revert endpoints'.
  induction endpoints as [|endpointAny rest IH]; intros endpoints'; simpl.
  - by intros [= <-].
  - destruct endpointAny as [| | | | |endpoint]; try done. simpl.
    unfold map_index at 1.
    destruct (endpoint !! "response") as [[| | | |responses|]|] eqn:Hresponses;
      try done.
    simpl. rewrite filterResponses_loop_all by done.
    destruct (kept_responses statusRanges responses) as [|kept] eqn:Hkept;
      simpl; [done|].
    destruct (filterEndpoints_loop statusRanges rest) as [|rest'];
      simpl; [done|].
    intros [= <-]. simpl. unfold map_index at 1.
    rewrite lookup_insert_eq. simpl.
    rewrite filterResponses_loop_all by apply lookup_insert_eq.
    rewrite (kept_responses_idemp _ _ _ Hkept). simpl.
    rewrite insert_insert_eq. by rewrite (IH _ eq_refl).
Qed.

Lemma in_a_range_iff (statusRanges : list (list Z)) (m : gmap string any)
    (f : Q) :
  m !! "code" = Some (AFloat64 f) →
  in_a_range statusRanges (AMap m) = true ↔
  ∃ start end_ : Z,
    [start; end_] ∈ statusRanges ∧
    (inject_Z start <= f)%Q ∧ (f <= inject_Z end_)%Q.
Proof.
  intros Hcode. unfold in_a_range. rewrite Hcode, existsb_exists. split.
  - intros (statusRange & Hin & Hrange).
    destruct statusRange as [|start [|end_ [|]]]; try done.
    apply andb_true_iff in Hrange as [Hlo Hhi].
    exists start, end_. rewrite list_elem_of_In, <- !Qle_bool_iff. done.
  - intros (start & end_ & Hin & Hlo & Hhi).
    exists [start; end_]. rewrite <- list_elem_of_In. split; [done|].
    apply andb_true_iff. by rewrite !Qle_bool_iff.
Qed.

Lemma response_inRange_inverted (m : gmap string any) (f : Q)
    (start end_ : Z) :
  m !! "code" = Some (AFloat64 f) → end_ < start →
  response_inRange m [[start; end_]] = Ret false.
Proof.
  intros Hcode Hinv. simpl. unfold map_index. rewrite Hcode. simpl.
  destruct (Z.geb_spec (int_of_float64 f) start); simpl; [|done].
  destruct (Z.leb_spec (int_of_float64 f) end_); [lia | done].
Qed.

(** *** The claims *)

(** C1. On a collection of the trusted shape and a non-empty list of ranges,
    the filter leaves the collection with, for every endpoint of [item], the
    responses whose code is within one of the ranges (start <= code <= end,
    both ends included) as its [response], in their order, and nothing else
    changed. With the nil or the empty list of ranges the collection is as it
    was. A range with start > end matches no code. *)
Theorem filterResponsesByStatus_keeps_codes_in_range
    (collection : gmap string any) (endpoints : list any)
    (statusRanges : list (list Z)) :
  collection !! "item" = Some (ASlice endpoints) →
  Forall Endpoint endpoints →
  Forall StatusRange statusRanges →
  (statusRanges ≠ [] →
   filterResponsesByStatus collection (Some statusRanges) =
     Ret (<["item" :=
              ASlice (map (filtered_endpoint statusRanges) endpoints)]>
            collection)) ∧
  (∀ endpoint : any, endpoint ∈ endpoints →
     ∃ (m : gmap string any) (responses : list any),
       endpoint = AMap m ∧ m !! "response" = Some (ASlice responses) ∧
       filtered_endpoint statusRanges endpoint =
         AMap (<["response" :=
                   ASlice (List.filter (in_a_range statusRanges) responses)]>
                 m)) ∧
  (∀ (m : gmap string any) (f : Q),
     m !! "code" = Some (AFloat64 f) →
     in_a_range statusRanges (AMap m) = true ↔
     ∃ start end_ : Z,
       [start; end_] ∈ statusRanges ∧
       (inject_Z start <= f)%Q ∧ (f <= inject_Z end_)%Q) ∧
  filterResponsesByStatus collection None = Ret collection ∧
  filterResponsesByStatus collection (Some []) = Ret collection ∧
  (∀ (m : gmap string any) (f : Q) (start end_ : Z),
     m !! "code" = Some (AFloat64 f) → end_ < start →
     response_inRange m [[start; end_]] = Ret false ∧
     in_a_range [[start; end_]] (AMap m) = false).
Proof.
  intros Hitem Hendpoints Hranges.
  split; [|split; [|split; [|split; [|split]]]]; try done.
  - intros Hne. destruct statusRanges as [|statusRange rest]; [done|].
    unfold filterResponsesByStatus, map_index. rewrite Hitem. simpl.
    by rewrite filterEndpoints_loop_shaped.
  - intros endpoint Hin.
    rewrite Forall_forall in Hendpoints.
    destruct (Hendpoints _ Hin) as (m & responses & -> & Hm & _).
    exists m, responses. simpl. by rewrite Hm.
  - intros m f Hcode. by apply in_a_range_iff.
  - intros m f start end_ Hcode Hinv.
    split; [by eapply response_inRange_inverted|].
    apply not_true_is_false. intros Hin.
    apply (in_a_range_iff _ _ _ Hcode) in Hin
      as (start' & end' & Hin & Hlo & Hhi).
    apply list_elem_of_singleton in Hin as [= -> ->].
    pose proof (Qle_trans _ _ _ Hlo Hhi) as Hle.
    rewrite <- Zle_Qle in Hle. lia.
Qed.

Lemma filterResponsesByStatus_keeps_codes_in_range_witness :
  filterResponsesByStatus sample_collection (Some [[200; 299]]) =
    Ret sample_filtered.
Proof.
  assert (∀ (code : Z) (name : string),
            in_int code = true → Response (sample_response code name))
    as Hresponse.
  { intros code name Hcode. eexists _, (inject_Z code), code.
    split; [reflexivity|]. split; [reflexivity|]. split; [reflexivity|done]. }
  assert (Forall Endpoint sample_endpoints) as Hendpoints.
  { repeat constructor. eexists _, _.
    split; [reflexivity|]. split; [reflexivity|].
    repeat constructor; by apply Hresponse. }
  assert (Forall StatusRange [[200; 299]]) as Hranges
    by (by repeat constructor).
  destruct (filterResponsesByStatus_keeps_codes_in_range
              sample_collection sample_endpoints [[200; 299]]
              eq_refl Hendpoints Hranges) as [Hfilter _].
  rewrite Hfilter by done. by vm_compute.
Defined.

(** Outside the trusted shape: a code with a fraction is compared after the
    conversion [int(...)], which discards the fraction. *)
Example response_inRange_discards_fraction :
  response_inRange {[ "code" := AFloat64 (2995 # 10) ]} [[200; 299]] =
    Ret true ∧
  in_a_range [[200; 299]] (AMap {[ "code" := AFloat64 (2995 # 10) ]}) = false.
Proof. by vm_compute. Qed.

(** C8. Filtering is idempotent: the filter applied again, with the same
    ranges, to the collection that it has left, leaves it as it is; and it
    panics in the second call on no collection that the first call returned. *)
Theorem filterResponsesByStatus_idempotent (collection : gmap string any)
    (statusRanges : option (list (list Z))) :
  (collection' ← filterResponsesByStatus collection statusRanges;
   filterResponsesByStatus collection' statusRanges) =
  filterResponsesByStatus collection statusRanges.
Proof.
  destruct statusRanges as [[|statusRange rest]|]; try done.
  unfold filterResponsesByStatus.
  destruct (assert_slice (map_index collection "item")) as [|endpoints];
    simpl; [done|].
  destruct (filterEndpoints_loop (statusRange :: rest) endpoints)
    as [|endpoints'] eqn:Hloop; simpl; [done|].
  unfold map_index. rewrite lookup_insert_eq. simpl.
  rewrite (filterEndpoints_loop_idemp _ _ _ Hloop). simpl.
  by rewrite insert_insert_eq.
Qed.

(** ** parseCollection *)

(** C3, as the code has it. When the bytes decode to a collection whose
    [info] is an object, [parseCollection] returns the schema error, which is
    not a decode error, whenever [info.schema] is anything but the identifier
    of Collection v2.1.0, also when [schema] is absent; it returns the decoded
    collection, as it was decoded and with no error, when [info.schema] is the
    identifier. A decode error is returned as a decode error. *)
Theorem parseCollection_schema_check
    (json_Unmarshal : string → gmap string any * option string)
    (jsonBytes : string) (collection info : gmap string any) :
  json_Unmarshal jsonBytes = (collection, None) →
  collection !! "info" = Some (AMap info) →
  (info !! "schema" = Some (AString collection_schema) →
   parseCollection json_Unmarshal jsonBytes = Ret (collection, None)) ∧
  (info !! "schema" ≠ Some (AString collection_schema) →
   parseCollection json_Unmarshal jsonBytes = Ret (∅, Some ErrUnknownSchema)) ∧
  (info !! "schema" = None →
   parseCollection json_Unmarshal jsonBytes = Ret (∅, Some ErrUnknownSchema)) ∧
  (∀ cause : string, ErrUnknownSchema ≠ ErrUnmarshal cause).
Proof.
  intros Hdecode Hinfo.
  unfold parseCollection, map_index. rewrite Hdecode, Hinfo.
  remember collection_schema as schema eqn:Hid. simpl. clear Hid.
  assert (info !! "schema" ≠ Some (AString schema) →
          (if any_neq_string (default ANil (info !! "schema")) schema
           then Ret (∅, Some ErrUnknownSchema) else Ret (collection, None)) =
            Ret (∅, Some ErrUnknownSchema)) as Hmismatch.
  { intros Hschema.
    destruct (info !! "schema") as [[| | |s| |]|]; try done. simpl.
    destruct (String.eqb_spec s schema) as [->|]; done. }
  split; [|split; [done|split; [|done]]].
  - intros ->. simpl. by rewrite String.eqb_refl.
  - intros Hnone. apply Hmismatch. by rewrite Hnone.
Qed.

Lemma parseCollection_schema_check_witness :
  parseCollection (λ _, (sample_collection, None)) "{...}" =
    Ret (sample_collection, None).
Proof.
  eapply (parseCollection_schema_check
            (λ _, (sample_collection, None)) "{...}"); reflexivity.
Defined.

Lemma parseCollection_decode_error
    (json_Unmarshal : string → gmap string any * option string)
    (jsonBytes cause : string) (collection : gmap string any) :
  json_Unmarshal jsonBytes = (collection, Some cause) →
  parseCollection json_Unmarshal jsonBytes = Ret (∅, Some (ErrUnmarshal cause)).
Proof. intros Hdecode. unfold parseCollection. by rewrite Hdecode. Qed.

Lemma parseCollection_info_not_object
    (json_Unmarshal : string → gmap string any * option string)
    (jsonBytes : string) (collection : gmap string any) :
  json_Unmarshal jsonBytes = (collection, None) →
  (∀ info, collection !! "info" ≠ Some (AMap info)) →
  parseCollection json_Unmarshal jsonBytes = Panic.
Proof.
  intros Hdecode Hinfo. unfold parseCollection, map_index. rewrite Hdecode.
  destruct (collection !! "info") as [[| | | | |info]|]; try done.
  by destruct (Hinfo info).
Qed.

(** C3, as it is stated, fails when [info] is absent: the document {}
    decodes, with no error, to the empty object, and the type assertion on
    [collection["info"]] panics; no schema error is returned. *)
Lemma parseCollection_info_absent_panics :
  let json_Unmarshal : string → gmap string any * option string :=
    λ jsonBytes, if String.eqb jsonBytes "{}" then (∅, None)
                 else (∅, Some "unexpected end of JSON input") in
  json_Unmarshal "{}" = (∅, None) ∧
  map_index ∅ "info" = ANil ∧
  parseCollection json_Unmarshal "{}" = Panic ∧
  parseCollection json_Unmarshal "{}" ≠ Ret (∅, Some ErrUnknownSchema).
Proof. by repeat split. Qed.

(** ** CreateUniqueFileName *)

Lemma append_length (s1 s2 : string) :
  String.length (s1 +:+ s2) = (String.length s1 + String.length s2)%nat.
Proof. induction s1 as [|c s1 IH]; simpl; [done | by rewrite IH]. Qed.

Lemma append_inv_tail (s1 s2 t : string) : s1 +:+ t = s2 +:+ t → s1 = s2.
Proof.
  revert s2. induction s1 as [|c s1 IH]; intros [|c' s2] Heq; simpl in Heq.
  - done.
  - apply (f_equal String.length) in Heq. simpl in Heq.
    rewrite append_length in Heq. lia.
  - apply (f_equal String.length) in Heq. simpl in Heq.
    rewrite append_length in Heq. lia.
  - injection Heq as -> Heq. by rewrite (IH _ Heq).
Qed.

Lemma suffixed_name_inj (base ext : string) :
  Inj (=) (=) (suffixed_name base ext).
Proof.
  intros i j Heq. unfold suffixed_name in Heq.
  apply String.app_inj in Heq. apply (String.app_inj "(") in Heq.
  apply append_inv_tail in Heq. by apply pretty_nat_inj in Heq.
Qed.

Lemma FileExists_true (w : World) (name : string) :
  FileExists w name = true ↔ name ∈ dom (files w).
Proof. unfold FileExists. by rewrite bool_decide_eq_true, elem_of_dom. Qed.

Lemma probe_suffix_Some (w : World) (base ext name : string) (fuel : nat) :
  ∀ i : nat,
    probe_suffix w base ext fuel i = Some name →
    ∃ k : nat,
      (i ≤ k < i + fuel)%nat ∧ name = suffixed_name base ext k ∧
      FileExists w name = false ∧
      ∀ j : nat, (i ≤ j < k)%nat →
                 FileExists w (suffixed_name base ext j) = true.
Proof.
  induction fuel as [|fuel IH]; intros i; simpl; [done|].
  destruct (FileExists w (suffixed_name base ext i)) eqn:Hexists.
  - intros (k & Hk & -> & Hfree & Hbelow)%IH.
    exists k. split; [lia|]. split; [done|]. split; [done|].
    intros j Hj. destruct (decide (j = i)) as [->|]; [done|].
    apply Hbelow. lia.
  - intros [= <-]. exists i. split; [lia|]. split; [done|]. split; [done|].
    intros j Hj. lia.
Qed.

Lemma probe_suffix_None (w : World) (base ext : string) (fuel : nat) :
  ∀ i : nat,
    probe_suffix w base ext fuel i = None →
    ∀ j : nat, (i ≤ j < i + fuel)%nat →
               FileExists w (suffixed_name base ext j) = true.
Proof.
  induction fuel as [|fuel IH]; intros i; simpl; [intros _ j; lia|].
  destruct (FileExists w (suffixed_name base ext i)) eqn:Hexists; [|done].
  intros Hnone j Hj. destruct (decide (j = i)) as [->|]; [done|].
  apply (IH _ Hnone). lia.
Qed.

(** Among more suffixes than there are files, one is free. *)
Lemma probe_suffix_enough_fuel (w : World) (base ext : string) (i : nat) :
  probe_suffix w base ext (S (size (files w))) i ≠ None.
Proof.
  intros Hnone.
  pose proof (probe_suffix_None _ _ _ _ _ Hnone) as Hall.
  set (names := suffixed_name base ext <$> seq i (S (size (files w)))).
  assert (NoDup names) as Hnodup
    by (apply NoDup_fmap_2; [apply suffixed_name_inj | apply NoDup_seq]).
  assert (list_to_set names ⊆ dom (files w)) as Hsub.
  { intros name [j [-> Hj%elem_of_seq]]%elem_of_list_to_set%list_elem_of_fmap.
    apply FileExists_true, Hall. lia. }
  apply subseteq_size in Hsub.
  rewrite size_list_to_set, size_dom in Hsub by done.
  unfold names in Hsub. rewrite length_fmap, length_seq in Hsub. lia.
Qed.

Lemma ext_ok_false (ext : string) :
  ext_ok ext = false ↔
  (ext ≠ "" ∧ ∀ rest, ext ≠ String "." rest) ∨ ext = ".".
Proof.
  destruct ext as [|c ext]; simpl.
  - split; [done|]. by intros [[? _]|?].
  - destruct (decide (c = "."%char)) as [->|Hc].
    + destruct ext as [|c' ext]; simpl.
      * split; [by right|done].
      * split; [done|]. intros [[_ Hdot]|?]; [|done].
        by destruct (Hdot (String c' ext)).
    + assert (ext_ok (String c ext) = false) as Hbad.
      { simpl. destruct c as [[] [] [] [] [] [] [] []]; try done. }
      simpl in Hbad. rewrite Hbad. split; [|done].
      intros _. left. split; [done|]. by intros rest [= ? _].
Qed.

(** C7. [CreateUniqueFileName] returns base+ext when no file exists there,
    and otherwise base(i)+ext for the least i >= 1 at which no file exists,
    the suffixes 1, ..., i-1 being all taken. It panics exactly when ext is
    malformed, that is non-empty without a leading dot, or the dot alone. It
    returns a name and no world: nothing is created. *)
Theorem CreateUniqueFileName_contract (w : World) (base ext : string) :
  (CreateUniqueFileName w base ext = Panic ↔ ext_ok ext = false) ∧
  (ext_ok ext = false ↔
   (ext ≠ "" ∧ ∀ rest, ext ≠ String "." rest) ∨ ext = ".") ∧
  (ext_ok ext = true → FileExists w (base +:+ ext) = false →
   CreateUniqueFileName w base ext = Ret (base +:+ ext)) ∧
  (ext_ok ext = true → FileExists w (base +:+ ext) = true →
   ∃ i : nat,
     (1 ≤ i)%nat ∧
     CreateUniqueFileName w base ext = Ret (suffixed_name base ext i) ∧
     FileExists w (suffixed_name base ext i) = false ∧
     ∀ j : nat, (1 ≤ j < i)%nat →
                FileExists w (suffixed_name base ext j) = true) ∧
  ext_ok "md" = false ∧ ext_ok "." = false ∧ ext_ok "a" = false ∧
  ext_ok ".md" = true ∧ ext_ok "" = true.
Proof.
  split; [|split; [apply ext_ok_false|split; [|split; [|done]]]].
  - pose proof (probe_suffix_enough_fuel w base ext 1) as Hfuel.
    unfold CreateUniqueFileName.
    destruct (ext_ok ext); cbn [negb]; [|done]. split; [|done].
    destruct (FileExists w (base +:+ ext)); cbn [negb]; [|done].
    by destruct (probe_suffix w base ext (S (size (files w))) 1).
  - intros Hext Hfree. unfold CreateUniqueFileName.
    by rewrite Hext, Hfree.
  - intros Hext Hexists.
    pose proof (probe_suffix_enough_fuel w base ext 1) as Hfuel.
    unfold CreateUniqueFileName.
    rewrite Hext, Hexists. cbn [negb].
    destruct (probe_suffix w base ext (S (size (files w))) 1)
      as [name|] eqn:Hprobe; [|done].
    apply probe_suffix_Some in Hprobe as (i & Hi & -> & Hfree & Hbelow).
    exists i. split; [lia|]. by repeat split.
Qed.

Lemma CreateUniqueFileName_witness :
  CreateUniqueFileName test_world "nonexistent file" ".txt" =
    Ret "nonexistent file.txt".
Proof.
  by apply (proj1 (proj2 (proj2
              (CreateUniqueFileName_contract test_world
                 "nonexistent file" ".txt")))).
Defined.

(** The cases of [TestCreateUniqueFileName]. *)
Example CreateUniqueFileName_tests :
  CreateUniqueFileName test_world "LICENSE" "" = Ret "LICENSE(1)" ∧
  CreateUniqueFileName test_world "README" ".md" = Ret "README(1).md" ∧
  CreateUniqueFileName test_world "nonexistent file" ".txt" =
    Ret "nonexistent file.txt" ∧
  CreateUniqueFileName test_world "README" "md" = Panic ∧
  CreateUniqueFileName test_world "nonexistent file" "." = Panic ∧
  CreateUniqueFileName test_world "nonexistent file" "a" = Panic.
Proof. by vm_compute. Qed.

Lemma CreateUniqueFileName_free (w : World) (base ext : string) :
  ext_ok ext = true →
  ∃ name : string,
    CreateUniqueFileName w base ext = Ret name ∧ FileExists w name = false.
Proof.
  intros Hext.
  pose proof (probe_suffix_enough_fuel w base ext 1) as Hfuel.
  unfold CreateUniqueFileName. rewrite Hext. cbn [negb].
  destruct (FileExists w (base +:+ ext)) eqn:Hexists; cbn [negb]; [|by eauto].
  destruct (probe_suffix w base ext (S (size (files w))) 1)
    as [name|] eqn:Hprobe; [|done].
  apply probe_suffix_Some in Hprobe as (i & _ & _ & Hfree & _). by eauto.
Qed.

(** ** getDestFile *)

Lemma length_eqb_0 (s : string) :
  (String.length s =? 0)%nat = bool_decide (s = "").
Proof. by destruct s. Qed.

Section GetDestFile.

Variable FormatFileName : string → string.
Variables (w : World) (collectionName : string).
Variable confirmReplaceExistingFile : bool.

Let getDestFile' (destName : string) :=
  getDestFile FormatFileName w destName collectionName
    confirmReplaceExistingFile.

Lemma getDestFile_create (destName : string) :
  destName ≠ "-" → destName ≠ "" →
  FileExists w destName = false ∨ confirmReplaceExistingFile = true →
  getDestFile' destName =
    Ret (if decide (destName ∈ uncreatable w)
         then (w, (None, "", Some (ErrCreate ("open " +:+ destName))))
         else (mkWorld (<[destName := ""]> (files w)) (uncreatable w)
                 ({[destName]} ∪ open_files w) (stdout_open w)
                 (stdout_written w),
               (Some (Created destName), destName, None))).
Proof.
  intros Hdash Hempty Hfree. unfold getDestFile', getDestFile.
  apply String.eqb_neq in Hdash. rewrite Hdash.
  rewrite length_eqb_0, bool_decide_eq_false_2 by done.
  replace (FileExists w destName && negb confirmReplaceExistingFile)
    with false by (by destruct Hfree as [-> | ->]; rewrite ?andb_false_r).
  unfold os_Create. by case_decide.
Qed.

Lemma getDestFile_generate :
  ∃ name : string,
    CreateUniqueFileName w (base_name FormatFileName collectionName) ".md" =
      Ret name ∧
    FileExists w name = false ∧
    getDestFile' "" =
      Ret (if decide (name ∈ uncreatable w)
           then (w, (None, "", Some (ErrCreate ("open " +:+ name))))
           else (mkWorld (<[name := ""]> (files w)) (uncreatable w)
                   ({[name]} ∪ open_files w) (stdout_open w)
                   (stdout_written w),
                 (Some (Created name), name, None))).
Proof.
  destruct (CreateUniqueFileName_free w
              (base_name FormatFileName collectionName) ".md" eq_refl)
    as (name & Hname & Hfree).
  exists name. split; [done|]. split; [done|].
  unfold getDestFile', getDestFile. cbn [String.eqb String.length Nat.eqb].
  rewrite length_eqb_0.
  replace (if bool_decide (FormatFileName collectionName = "")
           then "collection" else FormatFileName collectionName)
    with (base_name FormatFileName collectionName)
    by (unfold base_name; by case_bool_decide; case_decide).
  rewrite Hname. simpl. unfold os_Create. by case_decide.
Qed.

End GetDestFile.

(** C4. The three branches of [getDestFile]. For the name "-" the result is
    the standard output under the name "-", with no error and the world as it
    was. For a non-empty name other than "-", an existing file without the
    confirmation is the error "file exists"; otherwise the file is created, or
    truncated, at that very path. For the empty name the base is the formatted
    name of the collection, or collection when that is empty, the name is the
    one of [CreateUniqueFileName] with the extension .md, at which no file
    exists, and the file is created there. Whenever a file is returned, its
    name is the name that was given, but in the branch of the empty name; with
    an error, the file is nil and the name empty. *)
Theorem getDestFile_contract (FormatFileName : string → string) (w : World)
    (destName collectionName : string) (confirmReplaceExistingFile : bool) :
  let result :=
    getDestFile FormatFileName w destName collectionName
      confirmReplaceExistingFile in
  let created (name : string) :=
    (mkWorld (<[name := ""]> (files w)) (uncreatable w)
       ({[name]} ∪ open_files w) (stdout_open w) (stdout_written w),
     (Some (Created name), name, @None error)) in
  let not_created (name : string) :=
    (w, (@None File, "", Some (ErrCreate ("open " +:+ name)))) in
  (destName = "-" → result = Ret (w, (Some Stdout, "-", None))) ∧
  (destName ≠ "-" → destName ≠ "" →
   FileExists w destName = true → confirmReplaceExistingFile = false →
   result = Ret (w, (None, "", Some (ErrFileExists destName)))) ∧
  (destName ≠ "-" → destName ≠ "" →
   FileExists w destName = false ∨ confirmReplaceExistingFile = true →
   (destName ∉ uncreatable w → result = Ret (created destName)) ∧
   (destName ∈ uncreatable w → result = Ret (not_created destName))) ∧
  (destName = "" →
   ∃ name : string,
     CreateUniqueFileName w (base_name FormatFileName collectionName) ".md" =
       Ret name ∧
     FileExists w name = false ∧
     (name ∉ uncreatable w → result = Ret (created name)) ∧
     (name ∈ uncreatable w → result = Ret (not_created name))) ∧
  (base_name FormatFileName collectionName =
     if decide (FormatFileName collectionName = "") then "collection"
     else FormatFileName collectionName) ∧
  (∀ (w' : World) (destFile : File) (finalName : string),
     result = Ret (w', (Some destFile, finalName, None)) →
     destName ≠ "" → finalName = destName) ∧
  (∀ (w' : World) (destFile : option File) (finalName : string) (err : error),
     result = Ret (w', (destFile, finalName, Some err)) →
     w' = w ∧ destFile = None ∧ finalName = "").
Proof.
  intros result created not_created.
  assert (destName = "-" → result = Ret (w, (Some Stdout, "-", None)))
    as Hstdout by (by intros ->).
  assert (destName ≠ "-" → destName ≠ "" →
          FileExists w destName = true → confirmReplaceExistingFile = false →
          result = Ret (w, (None, "", Some (ErrFileExists destName))))
    as Hexists.
  { intros Hdash Hempty Hexists ->. unfold result, getDestFile.
    apply String.eqb_neq in Hdash. rewrite Hdash.
    rewrite length_eqb_0, bool_decide_eq_false_2 by done.
    by rewrite Hexists. }
  assert (destName ≠ "-" → destName ≠ "" →
          FileExists w destName = false ∨ confirmReplaceExistingFile = true →
          result = Ret (if decide (destName ∈ uncreatable w)
                        then not_created destName else created destName))
    as Hcreate by apply getDestFile_create.
  split; [done|]. split; [done|]. split; [|split; [|split; [|split]]].
  - intros Hdash Hempty Hfree. rewrite (Hcreate Hdash Hempty Hfree).
    split; intros ?; by case_decide.
  - intros ->.
    destruct (getDestFile_generate FormatFileName w collectionName
                confirmReplaceExistingFile) as (name & Hname & Hfree & Hresult).
    exists name. split; [done|]. split; [done|].
    unfold result. rewrite Hresult. split; intros ?; by case_decide.
  - done.
  - intros w' destFile finalName Hresult Hempty.
    destruct (decide (destName = "-")) as [Hdash|Hdash].
    { rewrite (Hstdout Hdash) in Hresult. by injection Hresult as _ _ <-. }
    destruct (FileExists w destName) eqn:Hfile,
      confirmReplaceExistingFile eqn:Hconfirm.
    2: { by rewrite (Hexists Hdash Hempty eq_refl eq_refl) in Hresult. }
    all: rewrite Hcreate in Hresult by auto;
      case_decide; by injection Hresult as _ _ <-.
  - intros w' destFile finalName err Hresult.
    destruct (decide (destName = "-")) as [Hdash|Hdash].
    { by rewrite (Hstdout Hdash) in Hresult. }
    destruct (decide (destName = "")) as [->|Hempty].
    { destruct (getDestFile_generate FormatFileName w collectionName
                  confirmReplaceExistingFile) as (name & _ & _ & Hgen).
      unfold result in Hresult. rewrite Hgen in Hresult.
      case_decide; [|done]. by injection Hresult as <- <- <- _. }
    destruct (FileExists w destName) eqn:Hfile,
      confirmReplaceExistingFile eqn:Hconfirm.
    2: { rewrite (Hexists Hdash Hempty eq_refl eq_refl) in Hresult.
         by injection Hresult as <- <- <- _. }
    all: rewrite Hcreate in Hresult by auto;
      case_decide; [|done]; by injection Hresult as <- <- <- _.
Qed.

Lemma getDestFile_contract_witness :
  getDestFile (λ name, name) test_world "README.md" "Users" false =
    Ret (test_world, (None, "", Some (ErrFileExists "README.md"))) ∧
  ∃ w' : World,
    getDestFile (λ name, name) test_world "README.md" "Users" true =
      Ret (w', (Some (Created "README.md"), "README.md", None)) ∧
    files w' !! "README.md" = Some "".
Proof.
  pose proof (getDestFile_contract (λ name, name) test_world "README.md"
                "Users" false) as (_ & Hexists & _).
  pose proof (getDestFile_contract (λ name, name) test_world "README.md"
                "Users" true) as (_ & _ & Hcreate & _).
  split.
  - by apply Hexists.
  - eexists. split.
    + apply Hcreate; [done | done | by right | by vm_compute].
    + by vm_compute.
Defined.

(** ** jsonToMdFile *)

Section JsonToMdFile.

Variable json_Unmarshal : string → gmap string any * option string.
Variable FormatFileName : string → string.
Variable template_Parse : string → string → option string.
Variable template_Execute :
  string → string → gmap string any → string * option string.

Variables (w : World) (jsonBytes tmplName tmplStr : string).
Variable statusRanges : option (list (list Z)).
Variable confirmReplaceExistingFile : bool.
Variables (parsed collection info : gmap string any).
Variable collectionName : string.

Hypothesis Hparse :
  parseCollection json_Unmarshal jsonBytes = Ret (parsed, None).
Hypothesis Hfilter :
  filterResponsesByStatus parsed statusRanges = Ret collection.
Hypothesis Hinfo : collection !! "info" = Some (AMap info).
Hypothesis Hname : info !! "name" = Some (AString collectionName).

(** What a template execution leaves as it was. *)
Lemma executeTemplate_frame (w0 : World) (destFile : File) :
  let w1 :=
    (executeTemplate template_Parse template_Execute w0 destFile collection
       tmplName tmplStr).1 in
  open_files w1 = open_files w0 ∧ stdout_open w1 = stdout_open w0 ∧
  match destFile with
  | Stdout => files w1 = files w0
  | Created name =>
      delete name (files w1) = delete name (files w0) ∧
      stdout_written w1 = stdout_written w0
  end.
Proof.
  unfold executeTemplate.
  destruct (template_Parse tmplName tmplStr) as [cause|].
  - by destruct destFile.
  - destruct (template_Execute tmplName tmplStr collection) as [bytes err].
    destruct destFile as [|name]; simpl; [done|].
    split; [done|]. split; [done|]. split; [|done].
    apply map_eq. intros name'. rewrite !lookup_delete.
    case_decide; [done|]. by rewrite lookup_alter_ne.
Qed.

(** The first half of C2: with a file as the destination, a failure of the
    template leaves the file closed and deleted and returns the error. *)
Lemma jsonToMdFile_file_failure (destName name : string) (w0 w1 : World)
    (err : error) :
  getDestFile FormatFileName w destName collectionName
    confirmReplaceExistingFile =
    Ret (w0, (Some (Created name), name, None)) →
  name ≠ "-" →
  executeTemplate template_Parse template_Execute w0 (Created name)
    collection tmplName tmplStr = (w1, Some err) →
  ∃ w' : World,
    jsonToMdFile json_Unmarshal FormatFileName template_Parse
      template_Execute w jsonBytes destName tmplName tmplStr statusRanges
      confirmReplaceExistingFile = Ret (w', ("", Some err)) ∧
    files w' = delete name (files w0) ∧
    FileExists w' name = false ∧
    (name ∉ open_files w') ∧
    stdout_open w' = stdout_open w0 ∧
    stdout_written w' = stdout_written w0.
Proof.
  intros Hdest Hdash Hexec. unfold jsonToMdFile.
  rewrite Hparse. simpl. rewrite Hfilter. simpl.
  unfold map_index. rewrite Hinfo. simpl. rewrite Hname. simpl.
  rewrite Hdest. simpl. rewrite Hexec.
  apply String.eqb_neq in Hdash. rewrite Hdash. simpl.
  eexists. split; [done|].
  pose proof (executeTemplate_frame w0 (Created name))
    as (Hopen & Hstdout & Hfiles & Hwritten).
  rewrite Hexec in Hopen, Hstdout, Hfiles, Hwritten. simpl in *.
  split; [done|]. split; [|split; [|done]].
  2: { intros [_ Hin]%elem_of_difference. by apply Hin, elem_of_singleton. }
  unfold FileExists. simpl. rewrite lookup_delete_eq.
  apply bool_decide_eq_false_2. by intros [? ?].
Qed.

(** C2, its second half on the code. With the standard output as the
    destination, a failure of the template closes [os.Stdout] and removes
    the file named - of the working directory: the error path calls
    [destFile.Close()] and [os.Remove(destName)] without the guard
    [destName != "-"] that the deferred call has. *)
Theorem jsonToMdFile_stdout_failure (w1 : World) (err : error) :
  executeTemplate template_Parse template_Execute w Stdout collection
    tmplName tmplStr = (w1, Some err) →
  ∃ w' : World,
    jsonToMdFile json_Unmarshal FormatFileName template_Parse
      template_Execute w jsonBytes "-" tmplName tmplStr statusRanges
      confirmReplaceExistingFile = Ret (w', ("", Some err)) ∧
    stdout_open w' = false ∧
    files w' = delete "-" (files w).
Proof.
  intros Hexec. unfold jsonToMdFile.
  rewrite Hparse. simpl. rewrite Hfilter. simpl.
  unfold map_index. rewrite Hinfo. simpl. rewrite Hname. simpl.
  rewrite Hexec. simpl.
  eexists. split; [done|].
  pose proof (executeTemplate_frame w Stdout) as (_ & _ & Hfiles).
  rewrite Hexec in Hfiles. simpl in *. by rewrite Hfiles.
Qed.

(** On success the standard output stays open and nothing is removed. *)
Lemma jsonToMdFile_stdout_success (w1 : World) :
  executeTemplate template_Parse template_Execute w Stdout collection
    tmplName tmplStr = (w1, None) →
  jsonToMdFile json_Unmarshal FormatFileName template_Parse
    template_Execute w jsonBytes "-" tmplName tmplStr statusRanges
    confirmReplaceExistingFile = Ret (w1, ("-", None)) ∧
  stdout_open w1 = stdout_open w ∧ files w1 = files w.
Proof.
  intros Hexec. unfold jsonToMdFile.
  rewrite Hparse. simpl. rewrite Hfilter. simpl.
  unfold map_index. rewrite Hinfo. simpl. rewrite Hname. simpl.
  rewrite Hexec. simpl. split; [done|].
  pose proof (executeTemplate_frame w Stdout) as (_ & Hstdout & Hfiles).
  by rewrite Hexec in Hstdout, Hfiles.
Qed.

End JsonToMdFile.

Lemma jsonToMdFile_stdout_failure_witness :
  ∃ w' : World,
    jsonToMdFile (λ _, (sample_collection, None)) (λ name, name)
      (λ _ _, None) failing_Execute dash_world "{...}" "-" "custom.tmpl"
      "# {{ .info.name.x }}" None false =
      Ret (w', ("", Some (ErrTemplateExecute
                            "can't evaluate field x in type interface {}"))) ∧
    stdout_open w' = false ∧
    files dash_world !! "-" = Some "notes" ∧
    files w' !! "-" = None.
Proof.
  destruct (jsonToMdFile_stdout_failure
              (λ _, (sample_collection, None)) (λ name, name)
              (λ _ _, None) failing_Execute dash_world "{...}" "custom.tmpl"
              "# {{ .info.name.x }}" None false
              sample_collection sample_collection
              {[ "name" := AString "Users";
                 "schema" := AString collection_schema ]} "Users"
              eq_refl eq_refl eq_refl eq_refl
              (File_Write dash_world Stdout "# Users")
              (ErrTemplateExecute "can't evaluate field x in type interface {}")
              eq_refl) as (w' & Hrun & Hstdout & Hfiles).
  exists w'. split; [done|]. split; [done|]. split; [done|].
  by rewrite Hfiles.
Defined.

(** * Further properties of the code *)

(** ** parseStatusRanges: what it returns *)

Lemma Atoi_no_dash (s : string) (z : Z) :
  no_char "-" s → strconv_Atoi s = Some z → 0 <= z <= maxInt.
Proof.
  intros Hs [Hliteral Hint]%Atoi_Some_iff.
  inversion Hliteral as [s' n HINT | s' n HINT | s' n HINT]; subst.
  - apply INT_nonneg in HINT. lia.
  - apply INT_nonneg in HINT. lia.
  - by apply no_char_cons in Hs as [? _].
Qed.

Lemma range_of_token_pair (t : string) (r : list Z) :
  range_of_token t = inr r → bounds_pair r.
Proof.
  unfold range_of_token.
  pose proof (Split_pieces t "-") as Hpieces.
  destruct (strings_Split t "-") as [|s0 [|s1 [|s2 ps]]]; try done.
  - inversion_clear Hpieces as [|?? H0 _].
    destruct (strconv_Atoi s0) as [start|] eqn:Hstart; [|done].
    intros [= <-]. pose proof (Atoi_no_dash _ _ H0 Hstart).
    by exists start, start.
  - inversion_clear Hpieces as [|?? H0 Hrest].
    inversion_clear Hrest as [|?? H1 _].
    destruct (strconv_Atoi s0) as [start|] eqn:Hstart; [|done].
    destruct (strconv_Atoi s1) as [end_|] eqn:Hend; [|done].
    intros [= <-]. pose proof (Atoi_no_dash _ _ H0 Hstart).
    pose proof (Atoi_no_dash _ _ H1 Hend). by exists start, end_.
Qed.

Lemma ranges_of_tokens_pairs (ts : list string) (rs : list (list Z)) :
  ranges_of_tokens ts = inr rs →
  length rs = length ts ∧ Forall bounds_pair rs.
Proof.
  revert rs. induction ts as [|t ts IH]; intros rs; simpl.
  - intros [= <-]. by split.
  - destruct (range_of_token t) as [|r] eqn:Hr; [done|].
    destruct (ranges_of_tokens ts) as [|rs']; [done|].
    intros [= <-]. destruct (IH _ eq_refl) as [Hlen Hall].
    split; [simpl; by rewrite Hlen|].
    constructor; [by eapply range_of_token_pair | done].
Qed.

Lemma parseStatusRanges_Some (e : string) (rs : list (list Z)) :
  parseStatusRanges e = Ret (Some rs, None) →
  e ≠ "" ∧ ranges_of_tokens (strings_Split e ",") = inr rs.
Proof.
  rewrite parseStatusRanges_eq. case_decide as He; [done|].
  destruct (ranges_of_tokens (strings_Split e ",")) as [|rs']; [done|].
  by intros [= <-].
Qed.

(** X1. A return of [parseStatusRanges] with the nil error has the nil slice
    for the empty string only; for any other string the slice has one range
    for each comma-separated token, each range has exactly two elements, and
    both are within 0 and the greatest [int]: no bound is negative. *)
Theorem parseStatusRanges_returns_pairs (e : string)
    (statusRanges : option (list (list Z))) :
  parseStatusRanges e = Ret (statusRanges, None) →
  match statusRanges with
  | None => e = ""
  | Some rs =>
      e ≠ "" ∧ length rs = S (count_char "," e) ∧
      Forall StatusRange rs ∧ Forall bounds_pair rs
  end.
Proof.
  rewrite parseStatusRanges_eq. case_decide as He.
  - by intros [= <-].
  - destruct (ranges_of_tokens (strings_Split e ",")) as [|rs] eqn:Hrs;
      [done|].
    intros [= <-]. apply ranges_of_tokens_pairs in Hrs as [Hlen Hall].
    rewrite Split_length in Hlen. repeat split; try done.
    eapply Forall_impl; [exact Hall|].
    by intros r (start & end_ & -> & _).
Qed.

Lemma parseStatusRanges_returns_pairs_witness :
  "200-299,404" ≠ "" ∧ length [[200; 299]; [404; 404]] = 2%nat ∧
  Forall StatusRange [[200; 299]; [404; 404]] ∧
  Forall bounds_pair [[200; 299]; [404; 404]].
Proof.
  exact (parseStatusRanges_returns_pairs "200-299,404"
           (Some [[200; 299]; [404; 404]]) eq_refl).
Defined.

Lemma ranges_of_tokens_inl (ts : list string) (err : error) :
  ranges_of_tokens ts = inl err →
  ∃ (pre post : list string) (t : string),
    ts = pre ++ t :: post ∧ Forall (λ p, ¬ malformed p) pre ∧
    token_error t err.
Proof.
  induction ts as [|t ts IH]; simpl; [done|].
  destruct (range_of_token t) as [err'|r] eqn:Hr.
  - intros [= ->]. exists [], ts, t.
    split; [done|]. split; [done | by apply token_error_complete].
  - destruct (ranges_of_tokens ts) as [err'|rs]; [|done].
    intros [= ->]. destruct (IH eq_refl) as (pre & post & t' & -> & Hpre & Ht).
    exists (t :: pre), post, t'. split; [done|]. split; [|done].
    constructor; [|done]. intros [err' Herr]%malformed_iff. congruence.
Qed.

(** X2. An error of [parseStatusRanges] has one cause only: the string is not
    empty and one of its comma-separated tokens is malformed (more than one
    dash, or a bound that is not an integer); the error returned is the one of
    the first such token, and the slice is nil. So a non-empty string is
    accepted exactly when none of its tokens is malformed. *)
Theorem parseStatusRanges_error_cause (e : string) :
  (∀ (statusRanges : option (list (list Z))) (err : error),
     parseStatusRanges e = Ret (statusRanges, Some err) →
     statusRanges = None ∧ e ≠ "" ∧
     ∃ (pre post : list string) (t : string),
       strings_Split e "," = pre ++ t :: post ∧
       Forall (λ p, ¬ malformed p) pre ∧ token_error t err) ∧
  (e ≠ "" →
   (∃ rs : list (list Z), parseStatusRanges e = Ret (Some rs, None)) ↔
   Forall (λ t, ¬ malformed t) (strings_Split e ",")).
Proof.
  split.
  - intros statusRanges err. rewrite parseStatusRanges_eq.
    case_decide as He; [done|].
    destruct (ranges_of_tokens (strings_Split e ",")) as [err'|rs] eqn:Hrs;
      [|done].
    intros [= <- <-]. split; [done|]. split; [done|].
    by apply ranges_of_tokens_inl.
  - intros He. rewrite parseStatusRanges_eq, decide_False by done. split.
    + intros [rs Hrs]. apply Forall_forall. intros t Hin Hbad.
      destruct (ranges_of_tokens_some_malformed _ _ Hin Hbad) as [err Herr].
      by rewrite Herr in Hrs.
    + intros Hall.
      destruct (ranges_of_tokens (strings_Split e ",")) as [err|rs] eqn:Hrs;
        [|by exists rs].
      apply ranges_of_tokens_inl in Hrs
        as (pre & post & t & Hsplit & _ & Herr).
      rewrite Hsplit in Hall. apply Forall_app in Hall as [_ Hall].
      inversion_clear Hall as [|?? Ht _]. destruct Ht. by exists err.
Qed.

Lemma parseStatusRanges_error_cause_witness :
  ∃ rs : list (list Z), parseStatusRanges "+200,7" = Ret (Some rs, None).
Proof.
  apply (proj2 (parseStatusRanges_error_cause "+200,7")); [done|].
  repeat constructor;
    intros [err Herr%token_error_sound]; by vm_compute in Herr.
Defined.

(** ** filterResponsesByStatus on any collection *)

Lemma response_inRange_int (m : gmap string any) (f : Q)
    (statusRanges : list (list Z)) :
  m !! "code" = Some (AFloat64 f) → Forall StatusRange statusRanges →
  response_inRange m statusRanges =
    Ret (existsb (int_in_range (int_of_float64 f)) statusRanges).
Proof.
  intros Hcode. induction 1 as [|statusRange rest Hpair _ IH]; [done|].
  destruct statusRange as [|start [|end_ [|]]]; try done.
  simpl. unfold map_index. rewrite Hcode. simpl.
  rewrite Z.geb_leb. destruct (start <=? int_of_float64 f); simpl; [|done].
  by destruct (int_of_float64 f <=? end_).
Qed.

Lemma kept_responses_filterable (statusRanges : list (list Z))
    (responses : list any) :
  Forall StatusRange statusRanges → Forall filterable_response responses →
  kept_responses statusRanges responses =
    Ret (List.filter (int_code_in_a_range statusRanges) responses).
Proof.
  intros Hranges. induction 1 as [|response rest (m & f & -> & Hcode) _ IH].
  - done.
  - simpl. rewrite (response_inRange_int _ _ _ Hcode Hranges), IH, Hcode.
    simpl. by destruct (existsb _ statusRanges).
Qed.

Lemma filterEndpoints_loop_filterable (statusRanges : list (list Z))
    (endpoints : list any) :
  Forall StatusRange statusRanges → Forall filterable_endpoint endpoints →
  filterEndpoints_loop statusRanges endpoints =
    Ret (map (endpoint_with (int_code_in_a_range statusRanges)) endpoints).
Proof.
  intros Hranges.
  induction 1 as [|endpoint rest (m & responses & -> & Hm & Hresponses) _ IH].
  - done.
  - simpl. unfold map_index. rewrite Hm. simpl.
    rewrite filterResponses_loop_all by done.
    rewrite kept_responses_filterable by done. simpl. by rewrite IH.
Qed.

Lemma kept_responses_Ret (statusRanges : list (list Z))
    (responses kept : list any) :
  statusRanges ≠ [] →
  kept_responses statusRanges responses = Ret kept →
  Forall filterable_response responses.
Proof.
  intros Hne. revert kept.
  induction responses as [|r responses IH]; intros kept; simpl; [done|].
  destruct r as [| | | | |m]; try done. simpl.
  destruct statusRanges as [|statusRange rest]; [done|].
  destruct (kept_responses (statusRange :: rest) responses) as [|kept'];
    [by destruct (response_inRange m _)|].
  intros Hkept. constructor; [|by eapply IH].
  exists m. simpl in Hkept. unfold map_index in Hkept.
  destruct (m !! "code") as [[| |f| | |]|]; try done. by exists f.
Qed.

Lemma filterEndpoints_loop_Ret (statusRanges : list (list Z))
    (endpoints endpoints' : list any) :
  statusRanges ≠ [] →
  filterEndpoints_loop statusRanges endpoints = Ret endpoints' →
  Forall filterable_endpoint endpoints.
Proof.
  intros Hne. revert endpoints'.
  induction endpoints as [|e endpoints IH]; intros endpoints'; simpl; [done|].
  destruct e as [| | | | |m]; try done. simpl. unfold map_index at 1.
  destruct (m !! "response") as [[| | | |responses|]|] eqn:Hm; try done.
  simpl. rewrite filterResponses_loop_all by done.
  destruct (kept_responses statusRanges responses) as [|kept] eqn:Hkept;
    [done|]. simpl.
  destruct (filterEndpoints_loop statusRanges endpoints) as [|rest'];
    [done|].
  intros _. constructor; [|by eapply IH].
  exists m, responses. split; [done|]. split; [done|].
  by eapply kept_responses_Ret.
Qed.

Lemma filter_on_filterable (collection : gmap string any)
    (endpoints : list any) (statusRanges : list (list Z)) :
  collection !! "item" = Some (ASlice endpoints) →
  Forall filterable_endpoint endpoints →
  Forall StatusRange statusRanges → statusRanges ≠ [] →
  filterResponsesByStatus collection (Some statusRanges) =
    Ret (<["item" :=
             ASlice (map (endpoint_with (int_code_in_a_range statusRanges))
                       endpoints)]> collection).
Proof.
  intros Hitem Hendpoints Hranges Hne.
  destruct statusRanges as [|statusRange rest]; [done|].
  unfold filterResponsesByStatus, map_index. rewrite Hitem. simpl.
  by rewrite filterEndpoints_loop_filterable.
Qed.

Lemma int_code_in_a_range_iff (statusRanges : list (list Z))
    (m : gmap string any) (f : Q) :
  m !! "code" = Some (AFloat64 f) →
  int_code_in_a_range statusRanges (AMap m) = true ↔
  ∃ start end_ : Z,
    [start; end_] ∈ statusRanges ∧ start <= int_of_float64 f <= end_.
Proof.
  intros Hcode. unfold int_code_in_a_range. rewrite Hcode, existsb_exists.
  split.
  - intros (statusRange & Hin & Hrange).
    destruct statusRange as [|start [|end_ [|]]]; try done.
    apply andb_true_iff in Hrange as [Hlo%Z.leb_le Hhi%Z.leb_le].
    exists start, end_. by rewrite list_elem_of_In.
  - intros (start & end_ & Hin & Hlo & Hhi).
    exists [start; end_]. rewrite <- list_elem_of_In. split; [done|].
    apply andb_true_iff. by rewrite !Z.leb_le.
Qed.

Lemma int_of_float64_truncates (f : Q) :
  (inject_Z minInt <= f)%Q → (f <= inject_Z maxInt)%Q →
  if Qle_bool 0 f
  then (inject_Z (int_of_float64 f) <= f)%Q ∧
       (f < inject_Z (int_of_float64 f + 1))%Q
  else (f <= inject_Z (int_of_float64 f))%Q ∧
       (inject_Z (int_of_float64 f - 1) < f)%Q.
Proof.
  intros Hmin Hmax. unfold int_of_float64.
  destruct (Qle_bool 0 f) eqn:Hsign.
  - assert (in_int (Qfloor f) = true) as ->.
    { apply in_int_iff. split.
      - apply Qle_bool_iff in Hsign.
        pose proof (Qfloor_resp_le 0 f Hsign) as Hfloor.
        change (Qfloor 0) with 0 in Hfloor.
        unfold minInt, intSize. simpl. lia.
      - rewrite <- (Qfloor_Z maxInt). by apply Qfloor_resp_le. }
    split; [apply Qfloor_le | apply Qlt_floor].
  - assert (in_int (Qceiling f) = true) as ->.
    { apply in_int_iff. split.
      - rewrite <- (Qceiling_Z minInt). by apply Qceiling_resp_le.
      - assert (f <= 0)%Q as Hneg.
        { apply Qnot_lt_le. intros Hlt%Qlt_le_weak%Qle_bool_iff. congruence. }
        pose proof (Qceiling_resp_le f 0 Hneg) as Hceiling.
        change (Qceiling 0) with 0 in Hceiling.
        unfold maxInt, intSize. simpl. lia. }
    split; [apply Qle_ceiling | apply Qceiling_lt].
Qed.

(** X3. On any collection whose items are objects with a list [response] of
    objects with a number as [code], and for a non-empty list of pairs, the
    filter keeps a response exactly when its code as an [int] is within one of
    the ranges (start <= int(code) <= end); the order and all other keys are
    kept. The conversion discards the fraction, towards zero: for a code
    within the range of [int] it is the whole number next to the code on the
    side of zero. *)
Theorem filterResponsesByStatus_truncated_codes
    (collection : gmap string any) (endpoints : list any)
    (statusRanges : list (list Z)) :
  collection !! "item" = Some (ASlice endpoints) →
  Forall filterable_endpoint endpoints →
  Forall StatusRange statusRanges → statusRanges ≠ [] →
  filterResponsesByStatus collection (Some statusRanges) =
    Ret (<["item" :=
             ASlice (map (endpoint_with (int_code_in_a_range statusRanges))
                       endpoints)]> collection) ∧
  (∀ (m : gmap string any) (f : Q),
     m !! "code" = Some (AFloat64 f) →
     int_code_in_a_range statusRanges (AMap m) = true ↔
     ∃ start end_ : Z,
       [start; end_] ∈ statusRanges ∧ start <= int_of_float64 f <= end_) ∧
  (∀ f : Q,
     (inject_Z minInt <= f)%Q → (f <= inject_Z maxInt)%Q →
     if Qle_bool 0 f
     then (inject_Z (int_of_float64 f) <= f)%Q ∧
          (f < inject_Z (int_of_float64 f + 1))%Q
     else (f <= inject_Z (int_of_float64 f))%Q ∧
          (inject_Z (int_of_float64 f - 1) < f)%Q).
Proof.
  intros Hitem Hendpoints Hranges Hne.
  split; [by apply filter_on_filterable|].
  split; [intros m f; apply int_code_in_a_range_iff|].
  apply int_of_float64_truncates.
Qed.

Lemma filterResponsesByStatus_truncated_codes_witness :
  filterResponsesByStatus fraction_collection (Some [[200; 299]]) =
    Ret {[ "item" := ASlice
             [AMap {[ "response" := ASlice
                        [AMap {[ "code" := AFloat64 (2995 # 10) ]}] ]}] ]}.
Proof.
  destruct (filterResponsesByStatus_truncated_codes fraction_collection _
              [[200; 299]] eq_refl) as [-> _].
  - repeat constructor. eexists _, _. split; [done|]. split; [done|].
    repeat constructor; by eexists _, _.
  - by repeat constructor.
  - done.
  - by vm_compute.
Defined.

(** X4. With a non-empty list of pairs the filter panics exactly on the
    collections that lack what it asserts: [item] absent or not a list, an
    item that is not an object with a list [response] (a folder), a response
    that is not an object with a number as [code]. *)
Theorem filterResponsesByStatus_panics_iff (collection : gmap string any)
    (statusRanges : list (list Z)) :
  Forall StatusRange statusRanges → statusRanges ≠ [] →
  filterResponsesByStatus collection (Some statusRanges) = Panic ↔
  ¬ filterable collection.
Proof.
  intros Hranges Hne. split.
  - intros Hpanic (endpoints & Hitem & Hendpoints).
    by rewrite (filter_on_filterable _ _ _
                  Hitem Hendpoints Hranges Hne) in Hpanic.
  - intros Hshape.
    destruct (filterResponsesByStatus collection (Some statusRanges))
      as [|collection'] eqn:Hfilter; [done|].
    destruct Hshape. unfold filterResponsesByStatus in Hfilter.
    destruct statusRanges as [|statusRange rest]; [done|].
    unfold map_index in Hfilter.
    destruct (collection !! "item") as [[| | | |endpoints|]|] eqn:Hitem;
      try done.
    simpl in Hfilter. exists endpoints. split; [done|].
    destruct (filterEndpoints_loop (statusRange :: rest) endpoints)
      as [|endpoints'] eqn:Hloop; [done|].
    by eapply filterEndpoints_loop_Ret.
Qed.

Lemma filterResponsesByStatus_panics_iff_witness :
  filterResponsesByStatus folder_collection (Some [[200; 299]]) = Panic.
Proof.
  apply filterResponsesByStatus_panics_iff.
  - by repeat constructor.
  - done.
  - intros (endpoints & Hitem & Hendpoints).
    injection Hitem as <-.
    inversion_clear Hendpoints as [|?? (m & responses & Hm & Hresponses & _) _].
    injection Hm as <-. by vm_compute in Hresponses.
Defined.

Lemma kept_responses_sublist (statusRanges : list (list Z))
    (responses kept : list any) :
  kept_responses statusRanges responses = Ret kept →
  kept `sublist_of` responses.
Proof.
  revert kept.
  induction responses as [|r responses IH]; intros kept; simpl.
  - intros [= <-]. constructor.
  - destruct (assert_map r) as [|m]; [done|]. simpl.
    destruct (response_inRange m statusRanges) as [|inRange]; [done|]. simpl.
    destruct (kept_responses statusRanges responses) as [|kept']; [done|].
    simpl. intros [= <-]. specialize (IH _ eq_refl).
    destruct inRange; by constructor.
Qed.

Lemma filterEndpoints_loop_shrinks (statusRanges : list (list Z))
    (endpoints endpoints' : list any) :
  filterEndpoints_loop statusRanges endpoints = Ret endpoints' →
  Forall2 endpoint_shrinks endpoints endpoints'.
Proof.
  revert endpoints'.
  induction endpoints as [|e endpoints IH]; intros endpoints'; simpl.
  - intros [= <-]. constructor.
  - destruct e as [| | | | |m]; try done. simpl. unfold map_index at 1.
    destruct (m !! "response") as [[| | | |responses|]|] eqn:Hm; try done.
    simpl. rewrite filterResponses_loop_all by done.
    destruct (kept_responses statusRanges responses) as [|kept] eqn:Hkept;
      [done|]. simpl.
    destruct (filterEndpoints_loop statusRanges endpoints) as [|rest'];
      [done|].
    simpl. intros [= <-]. constructor; [|by apply IH].
    exists m, responses, kept. split; [done|]. split; [done|].
    split; [by eapply kept_responses_sublist | done].
Qed.

(** X5. Whatever the collection and the ranges, a filter that returns has
    only removed responses: with the nil or the empty list of ranges the
    collection is as it was; otherwise [item] has as many endpoints as before,
    in the same order, every endpoint has kept its other keys, and its
    responses are some of the responses it had, in their order; the keys of
    the collection other than [item] are as they were. *)
Theorem filterResponsesByStatus_only_removes (collection collection'
    : gmap string any) (statusRanges : option (list (list Z))) :
  filterResponsesByStatus collection statusRanges = Ret collection' →
  match statusRanges with
  | None | Some [] => collection' = collection
  | Some _ =>
      ∃ endpoints endpoints' : list any,
        collection !! "item" = Some (ASlice endpoints) ∧
        collection' = <["item" := ASlice endpoints']> collection ∧
        length endpoints' = length endpoints ∧
        Forall2 endpoint_shrinks endpoints endpoints'
  end.
Proof.
  destruct statusRanges as [[|statusRange rest]|]; simpl;
    [by intros [= <-]| |by intros [= <-]].
  unfold map_index.
  destruct (collection !! "item") as [[| | | |endpoints|]|]; try done.
  simpl.
  destruct (filterEndpoints_loop (statusRange :: rest) endpoints)
    as [|endpoints'] eqn:Hloop; [done|].
  simpl. intros [= <-]. apply filterEndpoints_loop_shrinks in Hloop.
  exists endpoints, endpoints'. split; [done|]. split; [done|].
  split; [by apply Forall2_length in Hloop | done].
Qed.

Lemma filterResponsesByStatus_only_removes_witness :
  ∃ endpoints endpoints' : list any,
    sample_collection !! "item" = Some (ASlice endpoints) ∧
    sample_filtered = <["item" := ASlice endpoints']> sample_collection ∧
    length endpoints' = length endpoints ∧
    Forall2 endpoint_shrinks endpoints endpoints'.
Proof.
  exact (filterResponsesByStatus_only_removes sample_collection
           sample_filtered (Some [[200; 299]]) eq_refl).
Defined.

(** *** Filters composed, and the list of ranges as a set *)

Lemma filter_filter_andb {A : Type} (p q : A → bool) (l : list A) :
  List.filter q (List.filter p l) = List.filter (λ x, p x && q x) l.
Proof.
  induction l as [|x l IH]; simpl; [done|].
  destruct (p x); simpl; [|done]. destruct (q x); by rewrite IH.
Qed.

Lemma filter_ext_bool {A : Type} (p q : A → bool) (l : list A) :
  (∀ x, p x = q x) → List.filter p l = List.filter q l.
Proof. intros Hpq. induction l as [|x l IH]; simpl; by rewrite ?Hpq, ?IH. Qed.

Lemma endpoint_with_ext (p q : any → bool) (endpoint : any) :
  (∀ x, p x = q x) → endpoint_with p endpoint = endpoint_with q endpoint.
Proof.
  intros Hpq. destruct endpoint as [| | | | |m]; try done. simpl.
  destruct (m !! "response") as [[| | | |responses|]|]; try done.
  by rewrite (filter_ext_bool p q).
Qed.

Lemma endpoint_with_filterable (p : any → bool) (endpoints : list any) :
  Forall filterable_endpoint endpoints →
  Forall filterable_endpoint (map (endpoint_with p) endpoints).
Proof.
  induction 1 as [|e rest (m & responses & -> & Hm & Hresponses) _ IH];
    simpl; [done|].
  constructor; [|done]. rewrite Hm.
  exists (<["response" := ASlice (List.filter p responses)]> m),
    (List.filter p responses).
  split; [done|]. split; [by rewrite lookup_insert_eq|].
  apply Forall_forall. intros r Hr%list_elem_of_In%filter_In.
  rewrite Forall_forall in Hresponses.
  apply Hresponses, list_elem_of_In, Hr.
Qed.

Lemma endpoint_with_compose (p q : any → bool) (endpoints : list any) :
  Forall filterable_endpoint endpoints →
  map (endpoint_with q) (map (endpoint_with p) endpoints) =
    map (endpoint_with (λ x, p x && q x)) endpoints.
Proof.
  induction 1 as [|e rest (m & responses & -> & Hm & _) _ IH]; simpl; [done|].
  rewrite IH, Hm. simpl. rewrite lookup_insert_eq, insert_insert_eq.
  by rewrite filter_filter_andb.
Qed.

(** X6. Two filters in a row keep the responses that both keep, and the
    order of the two filters does not matter: on a collection of the shape
    that the filter reads and for two non-empty lists of pairs, filtering by
    the first list and then by the second returns what filtering by the second
    and then by the first returns. *)
Theorem filterResponsesByStatus_commute (collection : gmap string any)
    (endpoints : list any) (ranges1 ranges2 : list (list Z)) :
  collection !! "item" = Some (ASlice endpoints) →
  Forall filterable_endpoint endpoints →
  Forall StatusRange ranges1 → ranges1 ≠ [] →
  Forall StatusRange ranges2 → ranges2 ≠ [] →
  let both (response : any) :=
    int_code_in_a_range ranges1 response &&
    int_code_in_a_range ranges2 response in
  (collection1 ← filterResponsesByStatus collection (Some ranges1);
   filterResponsesByStatus collection1 (Some ranges2)) =
    Ret (<["item" := ASlice (map (endpoint_with both) endpoints)]>
           collection) ∧
  (collection2 ← filterResponsesByStatus collection (Some ranges2);
   filterResponsesByStatus collection2 (Some ranges1)) =
    Ret (<["item" := ASlice (map (endpoint_with both) endpoints)]>
           collection).
Proof.
  intros Hitem Hendpoints Hpairs1 Hne1 Hpairs2 Hne2 both.
  assert (∀ (r1 r2 : list (list Z)),
    Forall StatusRange r1 → r1 ≠ [] → Forall StatusRange r2 → r2 ≠ [] →
    (collection1 ← filterResponsesByStatus collection (Some r1);
     filterResponsesByStatus collection1 (Some r2)) =
      Ret (<["item" :=
               ASlice (map (endpoint_with
                              (λ x, int_code_in_a_range r1 x &&
                                    int_code_in_a_range r2 x)) endpoints)]>
             collection)) as Hseq.
  { intros r1 r2 H1 Hn1 H2 Hn2.
    rewrite (filter_on_filterable _ _ _
               Hitem Hendpoints H1 Hn1). cbn [mbind go_bind].
    erewrite filter_on_filterable;
      [|apply lookup_insert_eq|by apply endpoint_with_filterable|done..].
    by rewrite insert_insert_eq, endpoint_with_compose. }
  split; [by apply Hseq|].
  rewrite Hseq by done. do 3 f_equal.
  apply map_ext. intros e. apply endpoint_with_ext. intros x.
  apply andb_comm.
Qed.

Lemma filterResponsesByStatus_commute_witness :
  (collection1 ← filterResponsesByStatus sample_collection
                   (Some [[200; 299]]);
   filterResponsesByStatus collection1 (Some [[250; 404]])) =
  (collection2 ← filterResponsesByStatus sample_collection
                   (Some [[250; 404]]);
   filterResponsesByStatus collection2 (Some [[200; 299]])).
Proof.
  assert (Forall filterable_endpoint sample_endpoints) as Hendpoints.
  { repeat constructor. eexists _, _. split; [done|]. split; [done|].
    repeat constructor; by eexists _, _. }
  destruct (filterResponsesByStatus_commute sample_collection
              sample_endpoints [[200; 299]] [[250; 404]] eq_refl Hendpoints)
    as [-> ->]; by repeat constructor.
Defined.

Lemma existsb_Permutation {A : Type} (p : A → bool) (l1 l2 : list A) :
  l1 ≡ₚ l2 → existsb p l1 = existsb p l2.
Proof.
  induction 1 as [|x l1 l2 _ IH|x y l|l1 l2 l3 _ IH1 _ IH2]; simpl.
  - done.
  - by rewrite IH.
  - by destruct (p x), (p y).
  - by rewrite IH1.
Qed.

(** X7. The list of ranges is read as a set: on a collection of the shape
    that the filter reads, two non-empty lists of pairs that are permutations
    of each other give the same result, and the concatenation of two lists
    keeps the responses that one of the two keeps. *)
Theorem filterResponsesByStatus_ranges_as_set (collection : gmap string any)
    (endpoints : list any) (ranges1 ranges2 : list (list Z)) :
  collection !! "item" = Some (ASlice endpoints) →
  Forall filterable_endpoint endpoints →
  Forall StatusRange ranges1 → ranges1 ≠ [] →
  Forall StatusRange ranges2 →
  (ranges1 ≡ₚ ranges2 →
   filterResponsesByStatus collection (Some ranges1) =
     filterResponsesByStatus collection (Some ranges2)) ∧
  filterResponsesByStatus collection (Some (ranges1 ++ ranges2)) =
    Ret (<["item" :=
             ASlice (map (endpoint_with
                            (λ response,
                               int_code_in_a_range ranges1 response ||
                               int_code_in_a_range ranges2 response))
                       endpoints)]> collection).
Proof.
  intros Hitem Hendpoints Hpairs1 Hne1 Hpairs2. split.
  - intros Hperm.
    assert (ranges2 ≠ []) as Hne2
      by (intros ->; by apply Permutation_nil_r in Hperm).
    rewrite !(filter_on_filterable _ _ _ Hitem) by done.
    do 3 f_equal. apply map_ext. intros e. apply endpoint_with_ext.
    intros [| | | | |m]; try done. simpl.
    destruct (m !! "code") as [[| |f| | |]|]; try done.
    by apply existsb_Permutation.
  - rewrite (filter_on_filterable _ _ _ Hitem);
      [|done|by apply Forall_app|by destruct ranges1].
    do 3 f_equal. apply map_ext. intros e. apply endpoint_with_ext.
    intros [| | | | |m]; try done. simpl.
    destruct (m !! "code") as [[| |f| | |]|]; try done.
    apply existsb_app.
Qed.

Lemma filterResponsesByStatus_ranges_as_set_witness :
  filterResponsesByStatus sample_collection (Some [[200; 299]; [400; 499]]) =
    filterResponsesByStatus sample_collection (Some [[400; 499]; [200; 299]]).
Proof.
  assert (Forall filterable_endpoint sample_endpoints) as Hendpoints.
  { repeat constructor. eexists _, _. split; [done|]. split; [done|].
    repeat constructor; by eexists _, _. }
  assert (∀ ranges, Forall StatusRange ranges ↔
                    Forall (λ r, length r = 2%nat) ranges) as Hpairs by done.
  destruct (filterResponsesByStatus_ranges_as_set sample_collection
              sample_endpoints [[200; 299]; [400; 499]]
              [[400; 499]; [200; 299]] eq_refl Hendpoints) as [Hperm _].
  - apply Hpairs. by repeat constructor.
  - done.
  - apply Hpairs. by repeat constructor.
  - apply Hperm, perm_swap.
Defined.

(** X8. The ranges that [parseStatusRanges] returns are safe for the filter:
    on a collection of the shape that the filter reads, the filter with the
    result of a successful parse does not panic, whatever the expression. *)
Theorem parseStatusRanges_then_filter (e : string)
    (statusRanges : option (list (list Z))) (collection : gmap string any) :
  parseStatusRanges e = Ret (statusRanges, None) →
  filterable collection →
  ∃ collection' : gmap string any,
    filterResponsesByStatus collection statusRanges = Ret collection' ∧
    (e = "" → collection' = collection).
Proof.
  intros Hparse (endpoints & Hitem & Hendpoints).
  destruct statusRanges as [rs|].
  - apply parseStatusRanges_Some in Hparse as [He Hrs].
    apply ranges_of_tokens_pairs in Hrs as [Hlen Hpairs].
    assert (rs ≠ []) as Hne.
    { intros ->. rewrite Split_length in Hlen. done. }
    assert (Forall StatusRange rs) as Hshape.
    { eapply Forall_impl; [exact Hpairs|].
      by intros r (start & end_ & -> & _). }
    eexists. split.
    + by apply (filter_on_filterable _ _ _ Hitem).
    + by intros ->.
  - by exists collection.
Qed.

Lemma parseStatusRanges_then_filter_witness :
  ∃ collection' : gmap string any,
    filterResponsesByStatus sample_collection (Some [[200; 299]]) =
      Ret collection' ∧
    ("200-299" = "" → collection' = sample_collection).
Proof.
  apply (parseStatusRanges_then_filter "200-299" (Some [[200; 299]])
           sample_collection eq_refl).
  eexists. split; [done|].
  repeat constructor. eexists _, _. split; [done|]. split; [done|].
  repeat constructor; by eexists _, _.
Defined.

(** ** parseCollection: what a return tells *)

(** X9. A return of [parseCollection] with the nil error gives the map that
    the decoder left, and that map has an object [info] whose [schema] is the
    string of Collection v2.1.0; a return with an error gives the nil map, and
    the error is the one of the decoder or the schema error. *)
Theorem parseCollection_returns
    (json_Unmarshal : string → gmap string any * option string)
    (jsonBytes : string) (collection : gmap string any)
    (err : option error) :
  parseCollection json_Unmarshal jsonBytes = Ret (collection, err) →
  match err with
  | None =>
      json_Unmarshal jsonBytes = (collection, None) ∧
      ∃ info : gmap string any,
        collection !! "info" = Some (AMap info) ∧
        info !! "schema" = Some (AString collection_schema)
  | Some err =>
      collection = ∅ ∧
      ((∃ decoded cause, json_Unmarshal jsonBytes = (decoded, Some cause) ∧
                         err = ErrUnmarshal cause) ∨
       ((∃ decoded, json_Unmarshal jsonBytes = (decoded, None)) ∧
        err = ErrUnknownSchema))
  end.
Proof.
  unfold parseCollection, map_index.
  destruct (json_Unmarshal jsonBytes) as [decoded [cause|]].
  - intros [= <- <-]. split; [done|]. left. by exists decoded, cause.
  - destruct (decoded !! "info") as [[| | | | |info]|] eqn:Hinfo; try done.
    remember collection_schema as schema eqn:Hid. simpl.
    destruct (info !! "schema") as [[| | |s| |]|] eqn:Hschema; simpl;
      try (intros [= <- <-]; split; [done|]; right; split; [by eexists|done]).
    destruct (String.eqb_spec s schema) as [->|]; simpl.
    + intros [= <- <-]. split; [done|]. by exists info.
    + intros [= <- <-]. split; [done|]. right. split; [by eexists|done].
Qed.

Lemma parseCollection_returns_witness :
  (λ _ : string, (sample_collection, @None string)) "{...}" =
    (sample_collection, None) ∧
  ∃ info : gmap string any,
    sample_collection !! "info" = Some (AMap info) ∧
    info !! "schema" = Some (AString collection_schema).
Proof.
  exact (parseCollection_returns (λ _, (sample_collection, None)) "{...}"
           sample_collection None eq_refl).
Defined.

(** ** getDestFile: what it does to the world *)

Lemma CreateUniqueFileName_suffix (w : World) (base ext name : string) :
  CreateUniqueFileName w base ext = Ret name → ∃ p, name = p +:+ ext.
Proof.
  unfold CreateUniqueFileName.
  destruct (ext_ok ext); cbn [negb]; [|done].
  destruct (FileExists w (base +:+ ext)); cbn [negb].
  - destruct (probe_suffix w base ext (S (size (files w))) 1)
      as [name'|] eqn:Hprobe; [|done].
    intros [= <-].
    apply probe_suffix_Some in Hprobe as (i & _ & -> & _).
    exists (base +:+ "(" +:+ pretty i +:+ ")"). unfold suffixed_name.
    by rewrite !append_assoc.
  - intros [= <-]. by exists base.
Qed.

Lemma md_name_not_dash (p : string) : p +:+ ".md" ≠ "-".
Proof.
  intros Heq%(f_equal String.length). rewrite append_length in Heq.
  simpl in Heq. lia.
Qed.

(** The three ways in which [getDestFile] returns. *)
Lemma getDestFile_cases (FormatFileName : string → string) (w w' : World)
    (destName collectionName finalName : string) (confirm : bool)
    (destFile : option File) (err : option error) :
  getDestFile FormatFileName w destName collectionName confirm =
    Ret (w', (destFile, finalName, err)) →
  (destName = "-" ∧ w' = w ∧ destFile = Some Stdout ∧ finalName = "-" ∧
   err = None) ∨
  (destName ≠ "-" ∧ w' = w ∧ destFile = None ∧ finalName = "" ∧
   ∃ cause : string,
     err = Some (ErrFileExists cause) ∨ err = Some (ErrCreate cause)) ∨
  (destName ≠ "-" ∧ finalName ≠ "-" ∧ destFile = Some (Created finalName) ∧
   err = None ∧
   w' = mkWorld (<[finalName := ""]> (files w)) (uncreatable w)
          ({[finalName]} ∪ open_files w) (stdout_open w)
          (stdout_written w) ∧
   (destName ≠ "" → finalName = destName ∧
                    (FileExists w destName = false ∨ confirm = true)) ∧
   (destName = "" → FileExists w finalName = false)).
Proof.
  intros Hresult.
  destruct (decide (destName = "-")) as [->|Hdash].
  { left. by injection Hresult as <- <- <- <-. }
  right.
  destruct (decide (destName = "")) as [->|Hempty].
  - destruct (getDestFile_generate FormatFileName w collectionName confirm)
      as (name & Hname & Hfree & Hgen).
    rewrite Hgen in Hresult.
    apply CreateUniqueFileName_suffix in Hname as [p ->].
    case_decide; injection Hresult as <- <- <- <-;
      [left; repeat split; by eauto|].
    right. pose proof (md_name_not_dash p). by repeat split.
  - destruct (FileExists w destName) eqn:Hfile, confirm eqn:Hconfirm.
    2: { unfold getDestFile in Hresult.
         rewrite (proj2 (String.eqb_neq _ _) Hdash) in Hresult.
         rewrite length_eqb_0, bool_decide_eq_false_2, Hfile in Hresult
           by done.
         simpl in Hresult. injection Hresult as <- <- <- <-.
         left. repeat split; by eauto. }
    all: rewrite getDestFile_create in Hresult by auto;
      case_decide; injection Hresult as <- <- <- <-;
      [left; repeat split; by eauto|];
      right; repeat split; auto; done.
Qed.

(** X10. The file that [getDestFile] returns is the standard output exactly
    when the name it returns is "-", which is exactly when "-" was the name
    given; any other file returned is the one created at the returned name. So
    the test of the name in [jsonToMdFile] tells the two apart, as its comment
    says: a generated name ends in .md and is never "-". *)
Theorem getDestFile_Stdout_iff (FormatFileName : string → string)
    (w w' : World) (destName collectionName finalName : string)
    (confirm : bool) (destFile : File) :
  getDestFile FormatFileName w destName collectionName confirm =
    Ret (w', (Some destFile, finalName, None)) →
  (destFile = Stdout ↔ finalName = "-") ∧
  (finalName = "-" ↔ destName = "-") ∧
  (finalName ≠ "-" → destFile = Created finalName).
Proof.
  intros [(-> & _ & [= <-] & -> & _)
         |[(_ & _ & [=] & _)
          |(Hdash & Hname & [= ->] & _)]]%getDestFile_cases; by repeat split.
Qed.

Lemma getDestFile_Stdout_iff_witness :
  (Created "collection.md" = Stdout ↔ "collection.md" = "-") ∧
  ("collection.md" = "-" ↔ "" = "-") ∧
  ("collection.md" ≠ "-" → Created "collection.md" = Created "collection.md").
Proof.
  eapply (getDestFile_Stdout_iff (λ _, "") test_world _ "" "Users"
            "collection.md" false (Created "collection.md")).
  by vm_compute.
Defined.

(** X11. [getDestFile] changes no file but the one at the name it returns,
    leaves the standard output alone, and, unless the replacement is
    confirmed, loses the contents of no file: every file of before is there
    after, as it was. With an empty name this holds with the confirmation
    too. *)
Theorem getDestFile_frame (FormatFileName : string → string) (w w' : World)
    (destName collectionName finalName : string) (confirm : bool)
    (destFile : option File) (err : option error) :
  getDestFile FormatFileName w destName collectionName confirm =
    Ret (w', (destFile, finalName, err)) →
  (∀ path : string, path ≠ finalName →
                    files w' !! path = files w !! path) ∧
  (confirm = false ∨ destName = "" → files w ⊆ files w') ∧
  (is_Some err → w' = w) ∧
  stdout_open w' = stdout_open w ∧ stdout_written w' = stdout_written w.
Proof.
  intros [(-> & -> & _)
         |[(_ & -> & _ & _ & Herr)
          |(Hdash & Hname & _ & -> & -> & Hgiven & Hgenerated)]]
         %getDestFile_cases; try done.
  simpl. split; [|split; [|split; [by intros [??]|done]]].
  - intros path Hpath. by rewrite lookup_insert_ne.
  - intros Hsafe. apply insert_subseteq.
    assert (FileExists w finalName = false) as Hfree.
    { destruct (decide (destName = "")) as [He|He]; [by apply Hgenerated|].
      destruct (Hgiven He) as [-> [?| ->]]; [done|].
      by destruct Hsafe. }
    unfold FileExists in Hfree. apply bool_decide_eq_false in Hfree.
    by apply eq_None_not_Some.
Qed.

Lemma getDestFile_frame_witness :
  ∃ w' : World,
    getDestFile (λ name, name) test_world "" "README" false =
      Ret (w', (Some (Created "README(1).md"), "README(1).md", None)) ∧
    files test_world ⊆ files w' ∧
    files w' !! "README.md" = Some "# pm2md".
Proof.
  eexists. split; [by vm_compute|].
  match goal with
  | |- files test_world ⊆ files ?w' ∧ _ =>
      pose proof (getDestFile_frame (λ name, name) test_world w'
                    "" "README" "README(1).md" false
                    (Some (Created "README(1).md")) None)
        as (Hother & Hkept & _)
  end; [by vm_compute|].
  split; [apply Hkept; by left|]. by rewrite Hother.
Defined.

(** ** jsonToMdFile: every way in which it returns *)

Lemma parseCollection_error_kind
    (json_Unmarshal : string → gmap string any * option string)
    (jsonBytes : string) (collection : gmap string any) (err : error) :
  parseCollection json_Unmarshal jsonBytes = Ret (collection, Some err) →
  err = ErrUnknownSchema ∨ ∃ cause, err = ErrUnmarshal cause.
Proof.
  unfold parseCollection.
  destruct (json_Unmarshal jsonBytes) as [decoded [cause|]].
  - intros [= _ <-]. right. by exists cause.
  - destruct (assert_map (map_index decoded "info")) as [|info]; [done|].
    simpl. destruct (any_neq_string _ _); [|done].
    intros [= _ <-]. by left.
Qed.

Section JsonToMdFileReturns.

Variable json_Unmarshal : string → gmap string any * option string.
Variable FormatFileName : string → string.
Variable template_Parse : string → string → option string.
Variable template_Execute :
  string → string → gmap string any → string * option string.

Variables (w : World) (jsonBytes destName tmplName tmplStr : string).
Variable statusRanges : option (list (list Z)).
Variable confirm : bool.

Let run :=
  jsonToMdFile json_Unmarshal FormatFileName template_Parse template_Execute
    w jsonBytes destName tmplName tmplStr statusRanges confirm.

Let execute := executeTemplate template_Parse template_Execute.

(** The steps that a return of [jsonToMdFile] has been through. *)
Lemma jsonToMdFile_inv (w' : World) (name : string) (err : option error) :
  run = Ret (w', (name, err)) →
  (∃ (nilmap : gmap string any) (e : error),
     parseCollection json_Unmarshal jsonBytes = Ret (nilmap, Some e) ∧
     w' = w ∧ name = "" ∧ err = Some e) ∨
  ∃ (parsed collection info : gmap string any) (collectionName : string)
    (w0 : World) (destFile : option File) (finalName : string)
    (derr : option error),
    parseCollection json_Unmarshal jsonBytes = Ret (parsed, None) ∧
    filterResponsesByStatus parsed statusRanges = Ret collection ∧
    collection !! "info" = Some (AMap info) ∧
    info !! "name" = Some (AString collectionName) ∧
    getDestFile FormatFileName w destName collectionName confirm =
      Ret (w0, (destFile, finalName, derr)) ∧
    match derr, destFile with
    | Some e, _ => w' = w0 ∧ name = "" ∧ err = Some e
    | None, None => False
    | None, Some f =>
        let deferred (w1 : World) :=
          if negb (String.eqb finalName "-") then File_Close w1 f else w1 in
        match execute w0 f collection tmplName tmplStr with
        | (w1, Some e) =>
            w' = deferred (os_Remove (File_Close w1 f) finalName) ∧
            name = "" ∧ err = Some e
        | (w1, None) => w' = deferred w1 ∧ name = finalName ∧ err = None
        end
    end.
Proof.
  unfold run, jsonToMdFile.
  destruct (parseCollection json_Unmarshal jsonBytes)
    as [|[parsed [e|]]] eqn:Hparse; simpl; [done|..].
  { intros [= <- <- <-]. left. by exists parsed, e. }
  destruct (filterResponsesByStatus parsed statusRanges)
    as [|collection] eqn:Hfilter; simpl; [done|].
  unfold map_index.
  destruct (collection !! "info") as [[| | | | |info]|] eqn:Hinfo;
    simpl; try done.
  destruct (info !! "name") as [[| | |collectionName| |]|] eqn:Hname;
    simpl; try done.
  destruct (getDestFile FormatFileName w destName collectionName confirm)
    as [|[w0 [[destFile finalName] derr]]] eqn:Hdest; simpl; [done|].
  intros Hrun. right.
  exists parsed, collection, info, collectionName, w0, destFile, finalName,
    derr.
  do 5 (split; [done|]).
  destruct derr as [e|]; [by injection Hrun as <- <- <-|].
  destruct destFile as [f|]; [|done].
  unfold execute.
  destruct (executeTemplate template_Parse template_Execute w0 f collection
              tmplName tmplStr) as [w1 [e|]];
    by injection Hrun as <- <- <-.
Qed.

Lemma executeTemplate_inv (w0 w1 : World) (f : File)
    (collection : gmap string any) (err : option error) :
  execute w0 f collection tmplName tmplStr = (w1, err) →
  match err with
  | Some e =>
      (∃ cause, e = ErrTemplateParsing cause ∧ w1 = w0) ∨
      (∃ cause bytes, e = ErrTemplateExecute cause ∧
                      w1 = File_Write w0 f bytes)
  | None =>
      template_Parse tmplName tmplStr = None ∧
      ∃ bytes, template_Execute tmplName tmplStr collection = (bytes, None) ∧
               w1 = File_Write w0 f bytes
  end.
Proof.
  unfold execute, executeTemplate.
  destruct (template_Parse tmplName tmplStr) as [cause|].
  - intros [= <- <-]. left. by exists cause.
  - destruct (template_Execute tmplName tmplStr collection)
      as [bytes [cause|]]; intros [= <- <-].
    + right. by exists cause, bytes.
    + split; [done|]. by exists bytes.
Qed.

(** X12. An error return of [jsonToMdFile] has the empty name, and unless
    the error is one of the template (its parsing or its execution) the world
    is as it was: a document that does not decode or has another schema, an
    existing file without the confirmation and a file that cannot be created
    leave no file created and nothing written. *)
Theorem jsonToMdFile_error_returns (w' : World) (name : string)
    (err : error) :
  run = Ret (w', (name, Some err)) →
  name = "" ∧
  match err with
  | ErrTemplateParsing _ | ErrTemplateExecute _ => True
  | _ => w' = w
  end.
Proof.
  intros [(nilmap & e & Hparse & -> & -> & [= <-])
         |(parsed & collection & info & collectionName & w0 & destFile &
           finalName & derr & _ & _ & _ & _ & Hdest & Hrest)]
         %jsonToMdFile_inv.
  - split; [done|].
    by apply parseCollection_error_kind in Hparse as [-> | [? ->]].
  - destruct derr as [e|].
    + destruct Hrest as (-> & -> & [= <-]). split; [done|].
      by apply getDestFile_cases in Hdest
        as [(_ & _ & _ & _ & [=])
           |[(_ & -> & _ & _ & cause & [[= ->] | [= ->]])
            |(_ & _ & _ & [=] & _)]].
    + destruct destFile as [f|]; [|done]. cbv zeta in Hrest.
      destruct (execute w0 f collection tmplName tmplStr) as [w1 [e|]] eqn:Hx;
        [|by destruct Hrest as (_ & _ & [=])].
      destruct Hrest as (_ & -> & [= <-]). split; [done|].
      by apply executeTemplate_inv in Hx as [(? & -> & _)|(? & ? & -> & _)].
Qed.

Lemma jsonToMdFile_success_inv (w' : World) (name : string) :
  run = Ret (w', (name, None)) →
  ∃ (parsed collection : gmap string any) (bytes : string),
    parseCollection json_Unmarshal jsonBytes = Ret (parsed, None) ∧
    filterResponsesByStatus parsed statusRanges = Ret collection ∧
    template_Parse tmplName tmplStr = None ∧
    template_Execute tmplName tmplStr collection = (bytes, None) ∧
    (name = "-" ↔ destName = "-") ∧
    (name = "-" →
     files w' = files w ∧ open_files w' = open_files w ∧
     stdout_open w' = stdout_open w ∧
     stdout_written w' = stdout_written w +:+ bytes) ∧
    (name ≠ "-" →
     files w' = <[name := bytes]> (files w) ∧
     (name ∉ open_files w') ∧
     stdout_open w' = stdout_open w ∧
     stdout_written w' = stdout_written w ∧
     (destName ≠ "" → name = destName)).
Proof.
  intros [(nilmap & e & _ & _ & _ & [=])
         |(parsed & collection & info & collectionName & w0 & destFile &
           finalName & derr & Hparse & Hfilter & _ & _ & Hdest & Hrest)]
         %jsonToMdFile_inv.
  destruct derr as [e|]; [by destruct Hrest as (_ & _ & [=])|].
  destruct destFile as [f|]; [|done]. cbv zeta in Hrest.
  destruct (execute w0 f collection tmplName tmplStr) as [w1 [e|]] eqn:Hx;
    [by destruct Hrest as (_ & _ & [=])|].
  destruct Hrest as (-> & -> & _).
  apply executeTemplate_inv in Hx as (Htmpl & bytes & Hbytes & ->).
  exists parsed, collection, bytes. do 4 (split; [done|]).
  apply getDestFile_cases in Hdest
    as [(-> & -> & [= ->] & -> & _)
       |[(_ & _ & [=] & _)
        |(Hdash & Hname & [= ->] & _ & -> & Hgiven & _)]].
  - by repeat split.
  - apply String.eqb_neq in Hname as Heqb. rewrite Heqb. simpl.
    split; [done|]. split; [done|]. intros _.
    split; [by rewrite alter_insert_eq|].
    split; [|split; [done|split; [done|]]].
    + intros [_ Hin]%elem_of_difference. by apply Hin, elem_of_singleton.
    + intros He. by destruct (Hgiven He).
Qed.

(** X13. A return of [jsonToMdFile] with the nil error, for a name other
    than "-": the template has parsed and executed on the parsed and filtered
    collection, and the file at the returned name holds exactly the bytes it
    wrote, whatever the file held before; the file is closed, every other file
    and the standard output are as they were, and the name is the one given
    unless that was empty. With the name "-" the bytes are appended to
    the standard output, which stays open, and no file changes. *)
Theorem jsonToMdFile_success (w' : World) (name : string) :
  run = Ret (w', (name, None)) →
  ∃ (parsed collection : gmap string any) (bytes : string),
    parseCollection json_Unmarshal jsonBytes = Ret (parsed, None) ∧
    filterResponsesByStatus parsed statusRanges = Ret collection ∧
    template_Parse tmplName tmplStr = None ∧
    template_Execute tmplName tmplStr collection = (bytes, None) ∧
    (name = "-" ↔ destName = "-") ∧
    (name = "-" →
     files w' = files w ∧ open_files w' = open_files w ∧
     stdout_open w' = stdout_open w ∧
     stdout_written w' = stdout_written w +:+ bytes) ∧
    (name ≠ "-" →
     files w' !! name = Some bytes ∧
     (∀ path : string, path ≠ name → files w' !! path = files w !! path) ∧
     (name ∉ open_files w') ∧
     stdout_open w' = stdout_open w ∧
     stdout_written w' = stdout_written w ∧
     (destName ≠ "" → name = destName)).
Proof.
  intros (parsed & collection & bytes & Hparse & Hfilter & Htmpl & Hbytes &
          Hdash & Hstdout & Hfile)%jsonToMdFile_success_inv.
  exists parsed, collection, bytes. do 6 (split; [done|]).
  intros Hname. destruct (Hfile Hname) as (Hfiles & Hrest).
  rewrite Hfiles. split; [apply lookup_insert_eq|].
  split; [|done]. intros path Hpath. by rewrite lookup_insert_ne.
Qed.

(** X14. [jsonToMdFile] leaks no file handle: when it returns, with an error
    or without, every handle that is open was open before the call. *)
Theorem jsonToMdFile_closes_its_file (w' : World) (name : string)
    (err : option error) :
  run = Ret (w', (name, err)) → open_files w' ⊆ open_files w.
Proof.
  intros [(nilmap & e & _ & -> & _)
         |(parsed & collection & info & collectionName & w0 & destFile &
           finalName & derr & _ & _ & _ & _ & Hdest & Hrest)]
         %jsonToMdFile_inv; [done|].
  apply getDestFile_cases in Hdest
    as [(_ & -> & -> & -> & ->)
       |[(_ & -> & -> & _ & cause & [-> | ->])
        |(_ & Hname & -> & -> & -> & _)]].
  - cbv zeta in Hrest.
    destruct (execute w Stdout collection tmplName tmplStr)
      as [w1 xerr] eqn:Hx.
    assert (open_files w1 = open_files w) as Hopen.
    { pose proof (executeTemplate_frame template_Parse template_Execute
                    tmplName tmplStr collection w Stdout) as (Hopen & _).
      unfold execute in Hx. by rewrite Hx in Hopen. }
    destruct xerr as [e|]; destruct Hrest as (-> & _); simpl;
      by rewrite Hopen.
  - by destruct Hrest as (-> & _).
  - by destruct Hrest as (-> & _).
  - cbv zeta in Hrest.
    apply String.eqb_neq in Hname as Heqb. rewrite Heqb in Hrest.
    simpl in Hrest.
    match type of Hrest with
    | context [execute ?w0 _ _ _ _] => set (created := w0) in *
    end.
    destruct (execute created (Created finalName) collection tmplName tmplStr)
      as [w1 xerr] eqn:Hx.
    assert (open_files w1 = {[finalName]} ∪ open_files w) as Hopen.
    { pose proof (executeTemplate_frame template_Parse template_Execute
                    tmplName tmplStr collection created (Created finalName))
        as (Hopen & _).
      unfold execute in Hx. by rewrite Hx in Hopen. }
    assert (∀ X : gset string, ({[finalName]} ∪ X) ∖ {[finalName]} ⊆ X)
      as Hclosed.
    { intros X x [[Hx'%elem_of_singleton|Hx']%elem_of_union Hne]
        %elem_of_difference; [|done].
      by apply not_elem_of_singleton in Hne. }
    destruct xerr as [e|]; destruct Hrest as (-> & _); simpl;
      rewrite Hopen; [|done].
    etrans; [|apply Hclosed]. apply subseteq_difference_l. done.
Qed.

(** X15. What a failure of the template does to the files: with a name that
    was given, the file at that name is gone afterwards, the file that was
    there before the call included, and with the name "-" that is the
    file named "-"; with a generated name the files are those of before. No
    other file changes. *)
Theorem jsonToMdFile_template_error (w' : World) (name : string)
    (err : error) :
  run = Ret (w', (name, Some err)) →
  (∃ cause, err = ErrTemplateParsing cause ∨ err = ErrTemplateExecute cause) →
  files w' = if decide (destName = "") then files w
             else delete destName (files w).
Proof.
  intros [(nilmap & e & Hparse & _ & _ & [= <-])
         |(parsed & collection & info & collectionName & w0 & destFile &
           finalName & derr & _ & _ & _ & _ & Hdest & Hrest)]
         %jsonToMdFile_inv [cause Hkind].
  { apply parseCollection_error_kind in Hparse as [-> | [? ->]];
      by destruct Hkind. }
  assert (∀ (w0' w1 : World) (f : File) (xerr : option error),
            execute w0' f collection tmplName tmplStr = (w1, xerr) →
            match f with
            | Stdout => files w1 = files w0'
            | Created n => delete n (files w1) = delete n (files w0')
            end) as Hframe.
  { intros w0' w1 f xerr Hx.
    pose proof (executeTemplate_frame template_Parse template_Execute
                  tmplName tmplStr collection w0' f) as (_ & _ & Hfiles).
    unfold execute in Hx. rewrite Hx in Hfiles. simpl in Hfiles.
    destruct f; [done | by destruct Hfiles]. }
  apply getDestFile_cases in Hdest
    as [(-> & -> & -> & -> & ->)
       |[(_ & -> & -> & _ & d & [-> | ->])
        |(Hdash & Hname & -> & -> & -> & Hgiven & Hgenerated)]].
  - cbv zeta in Hrest.
    destruct (execute w Stdout collection tmplName tmplStr)
      as [w1 [e|]] eqn:Hx; [|by destruct Hrest as (_ & _ & [=])].
    destruct Hrest as (-> & _). simpl.
    by rewrite (Hframe _ _ _ _ Hx).
  - destruct Hrest as (_ & _ & [= ->]). by destruct Hkind.
  - destruct Hrest as (_ & _ & [= ->]). by destruct Hkind.
  - cbv zeta in Hrest.
    apply String.eqb_neq in Hname as Heqb. rewrite Heqb in Hrest.
    simpl in Hrest.
    match type of Hrest with
    | context [execute ?w0 _ _ _ _] => set (created := w0) in *
    end.
    destruct (execute created (Created finalName) collection tmplName tmplStr)
      as [w1 [e|]] eqn:Hx; [|by destruct Hrest as (_ & _ & [=])].
    destruct Hrest as (-> & _). simpl.
    rewrite (Hframe _ _ _ _ Hx). unfold created. simpl.
    rewrite delete_insert_eq. case_decide as He.
    + apply delete_id. specialize (Hgenerated He).
      unfold FileExists in Hgenerated.
      apply bool_decide_eq_false in Hgenerated.
      by apply eq_None_not_Some.
    + by destruct (Hgiven He) as [-> _].
Qed.

End JsonToMdFileReturns.

Lemma jsonToMdFile_error_returns_witness :
  "" = "" ∧ test_world = test_world.
Proof.
  apply (jsonToMdFile_error_returns sample_Unmarshal (λ name, name)
           parsing_Parse title_Execute test_world "{...}" "README.md"
           "default.tmpl" "# {{ .info.name }}" None false
           test_world "" (ErrFileExists "README.md")).
  by vm_compute.
Defined.

Lemma jsonToMdFile_success_witness :
  ∃ w' : World,
    jsonToMdFile sample_Unmarshal (λ name, name) parsing_Parse title_Execute
      test_world "{...}" "README.md" "default.tmpl" "# {{ .info.name }}"
      None true = Ret (w', ("README.md", None)) ∧
    files test_world !! "README.md" = Some "# pm2md" ∧
    files w' !! "README.md" = Some "# Users".
Proof.
  eexists. split; [by vm_compute|]. split; [done|].
  match goal with
  | |- files ?w' !! _ = _ =>
      destruct (jsonToMdFile_success sample_Unmarshal (λ name, name)
                  parsing_Parse title_Execute test_world "{...}" "README.md"
                  "default.tmpl" "# {{ .info.name }}" None true
                  w' "README.md")
        as (parsed & collection & bytes & _ & _ & _ & Hbytes & _ & _ & Hfile)
  end; [by vm_compute|].
  destruct Hfile as (-> & _); [done|]. by injection Hbytes as <-.
Defined.

Lemma jsonToMdFile_closes_its_file_witness :
  ∃ w' : World,
    jsonToMdFile sample_Unmarshal (λ name, name) parsing_Parse title_Execute
      test_world "{...}" "" "default.tmpl" "# {{ .info.name }}"
      None false = Ret (w', ("Users.md", None)) ∧
    open_files w' ⊆ open_files test_world.
Proof.
  eexists. split; [by vm_compute|].
  eapply (jsonToMdFile_closes_its_file sample_Unmarshal (λ name, name)
            parsing_Parse title_Execute test_world "{...}" ""
            "default.tmpl" "# {{ .info.name }}" None false).
  by vm_compute.
Defined.

Lemma jsonToMdFile_template_error_witness :
  ∃ w' : World,
    jsonToMdFile sample_Unmarshal (λ name, name) parsing_Parse
      failing_Execute test_world "{...}" "README.md" "custom.tmpl"
      "# {{ .info.name.x }}" None true =
      Ret (w', ("", Some (ErrTemplateExecute
                            "can't evaluate field x in type interface {}"))) ∧
    files test_world !! "README.md" = Some "# pm2md" ∧
    files w' !! "README.md" = None.
Proof.
  eexists. split; [by vm_compute|]. split; [done|].
  match goal with
  | |- files ?w' !! _ = _ =>
      rewrite (jsonToMdFile_template_error sample_Unmarshal (λ name, name)
                 parsing_Parse failing_Execute test_world "{...}"
                 "README.md" "custom.tmpl" "# {{ .info.name.x }}" None true
                 w' ""
                 (ErrTemplateExecute
                    "can't evaluate field x in type interface {}"))
  end.
  - by vm_compute.
  - by vm_compute.
  - eexists. by right.
Defined.

(** ** jsonToMdFile: when it panics *)

Lemma filterResponsesByStatus_other_keys (collection collection'
    : gmap string any) (statusRanges : option (list (list Z))) (key : string) :
  filterResponsesByStatus collection statusRanges = Ret collection' →
  key ≠ "item" → collection' !! key = collection !! key.
Proof.
  destruct statusRanges as [[|statusRange rest]|]; simpl;
    [by intros [= <-]| |by intros [= <-]].
  destruct (assert_slice (map_index collection "item")) as [|endpoints];
    [done|]. simpl.
  destruct (filterEndpoints_loop (statusRange :: rest) endpoints)
    as [|endpoints']; [done|].
  simpl. intros [= <-] Hkey. by rewrite lookup_insert_ne.
Qed.

Lemma getDestFile_returns (FormatFileName : string → string) (w : World)
    (destName collectionName : string) (confirm : bool) :
  getDestFile FormatFileName w destName collectionName confirm ≠ Panic.
Proof.
  destruct (decide (destName = "-")) as [->|Hdash]; [done|].
  destruct (decide (destName = "")) as [->|Hempty].
  - destruct (getDestFile_generate FormatFileName w collectionName confirm)
      as (name & _ & _ & ->). done.
  - destruct (FileExists w destName) eqn:Hfile, confirm eqn:Hconfirm;
      try (rewrite getDestFile_create by auto; done).
    unfold getDestFile.
    rewrite (proj2 (String.eqb_neq _ _) Hdash).
    by rewrite length_eqb_0, bool_decide_eq_false_2, Hfile by done.
Qed.

Section JsonToMdFilePanics.

Variable json_Unmarshal : string → gmap string any * option string.
Variable FormatFileName : string → string.
Variable template_Parse : string → string → option string.
Variable template_Execute :
  string → string → gmap string any → string * option string.

Variables (w : World) (jsonBytes destName tmplName tmplStr : string).
Variable statusRanges : option (list (list Z)).
Variable confirm : bool.

(** X16. [jsonToMdFile] panics in three cases and no other: the parsing of
    the collection panics ([info] is not an object), the filter panics, or
    [info.name] of the parsed collection is not a string. The last happens
    whatever the destination, also when the name of the collection is not
    needed; and it happens before any file is created. Finding the destination
    and running the template add no panic. *)
Theorem jsonToMdFile_panics_iff :
  jsonToMdFile json_Unmarshal FormatFileName template_Parse template_Execute
    w jsonBytes destName tmplName tmplStr statusRanges confirm = Panic ↔
  parseCollection json_Unmarshal jsonBytes = Panic ∨
  ∃ parsed info : gmap string any,
    parseCollection json_Unmarshal jsonBytes = Ret (parsed, None) ∧
    parsed !! "info" = Some (AMap info) ∧
    (filterResponsesByStatus parsed statusRanges = Panic ∨
     ∀ name : string, info !! "name" ≠ Some (AString name)).
Proof.
  unfold jsonToMdFile.
  destruct (parseCollection json_Unmarshal jsonBytes)
    as [|[parsed [e|]]] eqn:Hparse; simpl.
  { split; [by left | done]. }
  { split; [done|]. by intros [?|(? & ? & [=] & _)]. }
  assert (∃ info, parsed !! "info" = Some (AMap info)) as [info Hinfo].
  { unfold parseCollection in Hparse.
    destruct (json_Unmarshal jsonBytes) as [decoded [cause|]]; [done|].
    unfold map_index in Hparse.
    destruct (decoded !! "info") as [[| | | | |info]|] eqn:Hinfo; try done.
    simpl in Hparse. destruct (any_neq_string _ _); [done|].
    injection Hparse as <-. by exists info. }
  destruct (filterResponsesByStatus parsed statusRanges)
    as [|collection] eqn:Hfilter; simpl.
  { split; [|done]. intros _. right. exists parsed, info. auto. }
  rewrite <- (filterResponsesByStatus_other_keys _ _ _ "info" Hfilter)
    in Hinfo by done.
  unfold map_index. rewrite Hinfo. simpl.
  destruct (info !! "name") as [[| | |collectionName| |]|] eqn:Hname;
    simpl.
  4: { split.
       - pose proof (getDestFile_returns FormatFileName w destName
                       collectionName confirm) as Hreturns.
         destruct (getDestFile FormatFileName w destName collectionName
                     confirm)
           as [|[w0 [[destFile finalName] derr]]] eqn:Hdest; [done|].
         simpl. destruct derr as [e|]; [done|].
         apply getDestFile_cases in Hdest
           as [(_ & _ & -> & _)|[(_ & _ & _ & _ & ? & [[=]|[=]])
                                |(_ & _ & -> & _)]];
           by destruct (executeTemplate _ _ _ _ _ _ _) as [? []].
       - intros [?|(parsed' & info' & Heq & Hinfo' & Hcause)]; [done|].
         injection Heq as <-.
         destruct Hcause as [Hpanic|Hnone]; [congruence|].
         rewrite <- (filterResponsesByStatus_other_keys _ _ _ "info" Hfilter)
           in Hinfo' by done.
         rewrite Hinfo in Hinfo'. injection Hinfo' as <-.
         by destruct (Hnone collectionName). }
  all: split; [|done]; intros _; right;
    rewrite (filterResponsesByStatus_other_keys _ _ _ "info" Hfilter)
      in Hinfo by done;
    exists parsed, info; split; [done|]; split; [done|]; right;
    intros name; by rewrite ?Hname.
Qed.

End JsonToMdFilePanics.

(** ** argsFunc *)

Lemma string_drop_app (p t : string) :
  string_drop (String.length p) (p +:+ t) = t.
Proof. induction p as [|c p IH]; simpl; [by destruct t | done]. Qed.

Lemma string_drop_split (n : nat) (s : string) :
  (n ≤ String.length s)%nat →
  ∃ p : string, s = p +:+ string_drop n s ∧ String.length p = n.
Proof.
  revert s. induction n as [|n IH]; intros s Hn.
  - exists "". by destruct s.
  - destruct s as [|c s]; simpl in *; [lia|].
    destruct (IH s) as (p & Hs & Hp); [lia|].
    exists (String c p). simpl. by rewrite <- Hs, Hp.
Qed.

Lemma HasSuffix_iff (s suffix : string) :
  strings_HasSuffix s suffix = true ↔ ∃ p : string, s = p +:+ suffix.
Proof.
  unfold strings_HasSuffix. rewrite andb_true_iff, Nat.leb_le, String.eqb_eq.
  split.
  - intros [Hlen Hdrop].
    destruct (string_drop_split
                (String.length s - String.length suffix) s) as (p & Hs & _);
      [lia|].
    exists p. by rewrite <- Hdrop.
  - intros [p ->]. rewrite append_length. split; [lia|].
    replace (String.length p + String.length suffix - String.length suffix)%nat
      with (String.length p) by lia.
    apply string_drop_app.
Qed.

Lemma HasSuffix_false_iff (s suffix : string) :
  strings_HasSuffix s suffix = false ↔ ¬ ∃ p : string, s = p +:+ suffix.
Proof. rewrite <- HasSuffix_iff. by destruct (strings_HasSuffix s suffix). Qed.

Lemma length_eqb_0' (s : string) :
  (0 <? String.length s)%nat = negb (bool_decide (s = "")).
Proof. by destruct s. Qed.

(** The two checks of [argsFunc] on the first argument and on the path of
    the template. *)
Lemma args_checks (unicode_ToLower : string → string)
    (arg0 CustomTmplPath : string) :
  (if negb (String.eqb arg0 "-") &&
      negb (strings_HasSuffix (strings_ToLower unicode_ToLower arg0) ".json")
   then Ret (Some (ErrNotJson arg0))
   else if (0 <? String.length CustomTmplPath)%nat &&
           negb (strings_HasSuffix CustomTmplPath ".tmpl")
   then Ret (Some (ErrNotTmpl CustomTmplPath))
   else Ret None) = Ret None ↔
  (arg0 = "-" ∨ ∃ p, strings_ToLower unicode_ToLower arg0 = p +:+ ".json") ∧
  (CustomTmplPath = "" ∨ ∃ p, CustomTmplPath = p +:+ ".tmpl").
Proof.
  rewrite <- !HasSuffix_iff, length_eqb_0'.
  destruct (strings_HasSuffix (strings_ToLower unicode_ToLower arg0) ".json");
    destruct (String.eqb_spec arg0 "-") as [Hdash|Hdash];
    destruct (strings_HasSuffix CustomTmplPath ".tmpl");
    destruct (decide (CustomTmplPath = "")) as [Hpath|Hpath];
    rewrite ?bool_decide_eq_true_2, ?bool_decide_eq_false_2 by done;
    simpl; intuition congruence.
Qed.

Lemma argsFunc_accepts_iff (unicode_ToLower : string → string)
    (GetTemplate : bool) (CustomTmplPath : string) (args : list string) :
  argsFunc unicode_ToLower GetTemplate CustomTmplPath args = Ret None ↔
  (args = [] ∧ GetTemplate = true) ∨
  ∃ (arg0 : string) (rest : list string),
    args = arg0 :: rest ∧ (length rest ≤ 1)%nat ∧
    (arg0 = "-" ∨
     ∃ p, strings_ToLower unicode_ToLower arg0 = p +:+ ".json") ∧
    (CustomTmplPath = "" ∨ ∃ p, CustomTmplPath = p +:+ ".tmpl").
Proof.
  unfold argsFunc, cobra_MinimumNArgs, cobra_MaximumNArgs.
  destruct args as [|arg0 [|arg1 [|arg2 rest]]].
  - destruct GetTemplate; simpl; split; try done; [by left|].
    by intros [[_ ?]|(? & ? & ? & _)].
  - simpl. rewrite args_checks. split.
    + intros [? ?]. right. exists arg0, []. simpl. auto.
    + by intros [[? _]|(? & ? & [= <- <-] & _ & ? & ?)].
  - simpl. rewrite args_checks. split.
    + intros [? ?]. right. exists arg0, [arg1]. simpl. auto.
    + by intros [[? _]|(? & ? & [= <- <-] & _ & ? & ?)].
  - simpl. split; [done|].
    intros [[? _]|(? & ? & [= <- <-] & Hlen & _)]; [done|].
    simpl in Hlen. lia.
Qed.

(** X17. [argsFunc] never panics: it reads [args[0]] only after
    [MinimumNArgs(1)] has passed. It accepts the arguments in two cases and no
    other: there is none and the flag of the template export is set, whatever
    the template path; or there are one or two, the first is "-" or
    ends, once lowered, with .json, and the template path is empty or ends
    with .tmpl (in lower case). The second argument is never looked at. *)
Theorem argsFunc_accepts (unicode_ToLower : string → string)
    (GetTemplate : bool) (CustomTmplPath : string) (args : list string) :
  argsFunc unicode_ToLower GetTemplate CustomTmplPath args ≠ Panic ∧
  (argsFunc unicode_ToLower GetTemplate CustomTmplPath args = Ret None ↔
   (args = [] ∧ GetTemplate = true) ∨
   ∃ (arg0 : string) (rest : list string),
     args = arg0 :: rest ∧ (length rest ≤ 1)%nat ∧
     (arg0 = "-" ∨
      ∃ p, strings_ToLower unicode_ToLower arg0 = p +:+ ".json") ∧
     (CustomTmplPath = "" ∨ ∃ p, CustomTmplPath = p +:+ ".tmpl")) ∧
  (∀ arg0 out out' : string,
     argsFunc unicode_ToLower GetTemplate CustomTmplPath [arg0; out] =
     argsFunc unicode_ToLower GetTemplate CustomTmplPath [arg0; out']).
Proof.
  split; [|split; [|done]].
  - unfold argsFunc, cobra_MinimumNArgs, cobra_MaximumNArgs.
    destruct args as [|arg0 [|arg1 [|arg2 rest]]]; simpl;
      try (by destruct GetTemplate).
    all: by repeat case_match.
  - apply argsFunc_accepts_iff.
Qed.

Lemma is_ascii_app (s1 s2 : string) :
  is_ascii (s1 +:+ s2) = is_ascii s1 && is_ascii s2.
Proof.
  induction s1 as [|c s1 IH]; simpl; [done|].
  by rewrite IH, andb_assoc.
Qed.

Lemma lower_bytes_app (s1 s2 : string) :
  lower_bytes (s1 +:+ s2) = lower_bytes s1 +:+ lower_bytes s2.
Proof. induction s1 as [|c s1 IH]; simpl; [done | by rewrite IH]. Qed.

Lemma lower_bytes_length (s : string) :
  String.length (lower_bytes s) = String.length s.
Proof. induction s as [|c s IH]; simpl; [done | by rewrite IH]. Qed.

Lemma append_inj_suffix (p q s t : string) :
  p +:+ s = q +:+ t → String.length s = String.length t → s = t.
Proof.
  intros Heq Hlen.
  assert (String.length p = String.length q) as Hpq.
  { apply (f_equal String.length) in Heq. rewrite !append_length in Heq. lia. }
  apply (f_equal (string_drop (String.length p))) in Heq.
  rewrite string_drop_app in Heq. rewrite Hpq in Heq.
  by rewrite string_drop_app in Heq.
Qed.

(** X18. The suffix of the first argument is compared without regard to the
    case of its letters, and the suffix of the template path with regard to
    it: an argument of ASCII bytes that ends with .json in whatever case
    (.JSON, .Json) is accepted, and a template path that ends with .tmpl in
    another case than the lower one (.TMPL) is refused. *)
Theorem argsFunc_suffix_case (unicode_ToLower : string → string)
    (GetTemplate : bool) (base suffix p : string) (rest : list string) :
  (length rest ≤ 1)%nat →
  (is_ascii (base +:+ suffix) = true → lower_bytes suffix = ".json" →
   argsFunc unicode_ToLower GetTemplate "" ((base +:+ suffix) :: rest) =
     Ret None) ∧
  (lower_bytes suffix = ".tmpl" → suffix ≠ ".tmpl" →
   argsFunc unicode_ToLower GetTemplate (p +:+ suffix) ("-" :: rest) =
     Ret (Some (ErrNotTmpl (p +:+ suffix)))).
Proof.
  intros Hrest. split.
  - intros Hascii Hjson.
    apply (argsFunc_accepts_iff unicode_ToLower). right.
    exists (base +:+ suffix), rest. split; [done|]. split; [done|].
    split; [|by left]. right. exists (lower_bytes base).
    unfold strings_ToLower. by rewrite Hascii, lower_bytes_app, Hjson.
  - intros Hlower Hcase.
    assert (strings_HasSuffix (p +:+ suffix) ".tmpl" = false) as Hsuffix.
    { apply HasSuffix_false_iff. intros [q Heq]. apply Hcase.
      apply (append_inj_suffix _ _ _ _ Heq).
      by rewrite <- lower_bytes_length, Hlower. }
    assert (p +:+ suffix ≠ "") as Hpath.
    { intros Heq%(f_equal String.length).
      rewrite append_length, <- (lower_bytes_length suffix), Hlower in Heq.
      simpl in Heq. lia. }
    unfold argsFunc, cobra_MinimumNArgs, cobra_MaximumNArgs.
    destruct rest as [|out [|]]; simpl in *; try lia;
      by rewrite length_eqb_0', bool_decide_eq_false_2, Hsuffix by done.
Qed.

Lemma argsFunc_suffix_case_witness :
  argsFunc (λ s, s) false "" ["API.JSON"; "out.md"] = Ret None ∧
  argsFunc (λ s, s) false "custom.TMPL" ["-"; "out.md"] =
    Ret (Some (ErrNotTmpl "custom.TMPL")).
Proof.
  destruct (argsFunc_suffix_case (λ s, s) false "API" ".JSON" "" ["out.md"])
    as [Hjson _]; [simpl; lia|].
  destruct (argsFunc_suffix_case (λ s, s) false "" ".TMPL" "custom"
              ["out.md"]) as [_ Htmpl]; [simpl; lia|].
  split; [by apply Hjson | by apply Htmpl].
Defined.

(** ** loadTmpl *)

Lemma ReplaceAll_app (s1 s2 : string) (old new : ascii) :
  strings_ReplaceAll (s1 +:+ s2) old new =
    strings_ReplaceAll s1 old new +:+ strings_ReplaceAll s2 old new.
Proof. induction s1 as [|c s1 IH]; simpl; [done | by rewrite IH]. Qed.

Lemma ReplaceAll_absent (s : string) (old new : ascii) :
  no_char old s → strings_ReplaceAll s old new = s.
Proof.
  induction s as [|c s IH]; [done|].
  intros [Hc Hs]%no_char_cons. simpl.
  apply Ascii.eqb_neq in Hc. by rewrite Hc, IH.
Qed.

Lemma ReplaceAll_no_old (s : string) (old new : ascii) :
  new ≠ old → no_char old (strings_ReplaceAll s old new).
Proof.
  intros Hnew. induction s as [|c s IH]; [done|]. simpl.
  apply no_char_cons. split; [|done].
  destruct (Ascii.eqb_spec c old); done.
Qed.

Lemma strip_trailing_slashes_name (dir name : string) :
  name ≠ "" → no_char "/" name →
  strip_trailing_slashes (dir +:+ name) = dir +:+ name.
Proof.
  intros Hname Hslash.
  assert (strip_trailing_slashes name = name) as Hstrip.
  { clear dir. induction name as [|c name IH]; [done|].
    apply no_char_cons in Hslash as [Hc Hslash]. simpl.
    destruct name as [|c' name'].
    - simpl. apply Ascii.eqb_neq in Hc. by rewrite Hc.
    - by rewrite IH. }
  induction dir as [|c dir IH]; simpl; [done|].
  rewrite IH. destruct (dir +:+ name) eqn:Heq; [|done].
  destruct dir, name; done.
Qed.

Lemma after_last_slash_dir (dir name : string) :
  no_char "/" name → after_last_slash (dir +:+ String "/" name) = name.
Proof.
  intros Hslash. induction dir as [|c dir IH]; simpl.
  - by rewrite Hslash.
  - rewrite count_char_app. simpl. rewrite IH.
    by replace (0 <? count_char "/" dir + S (count_char "/" name))%nat
      with true by (symmetry; apply Nat.ltb_lt; lia).
Qed.

Lemma after_last_slash_name (name : string) :
  no_char "/" name → after_last_slash name = name.
Proof.
  destruct name as [|c name]; [done|].
  intros [Hc Hslash]%no_char_cons. simpl. rewrite Hslash. simpl.
  apply Ascii.eqb_neq in Hc. by rewrite Hc.
Qed.

Lemma after_last_slash_app (p suffix : string) :
  no_char "/" suffix →
  after_last_slash (p +:+ suffix) = after_last_slash p +:+ suffix.
Proof.
  intros Hslash. induction p as [|c p IH]; simpl.
  - by apply after_last_slash_name.
  - rewrite count_char_app, Hslash, Nat.add_0_r.
    destruct (0 <? count_char "/" p)%nat; [done|].
    by destruct (Ascii.eqb c "/").
Qed.

Lemma after_last_slash_no_char (s : string) (c : ascii) :
  (c = "/"%char ∨ no_char c s) → no_char c (after_last_slash s).
Proof.
  intros Hc. induction s as [|c' s IH]; [done|]. simpl.
  assert (c = "/"%char ∨ no_char c s) as Hs.
  { destruct Hc as [?|[_ ?]%no_char_cons]; auto. }
  destruct (Nat.ltb_spec 0 (count_char "/" s)); [by apply IH|].
  assert (no_char c s) as Hrest.
  { destruct Hs as [->|?]; [|done]. unfold no_char. lia. }
  destruct (Ascii.eqb_spec c' "/") as [->|Hc']; [done|].
  apply no_char_cons. split; [|done].
  destruct Hc as [->|[? _]%no_char_cons]; done.
Qed.

Section LoadTmplProperties.

Variable defaultTmplStr : string.
Variables (w : World).

(** X19. The name of a custom template is the last element of its path,
    with the slash or the backslash as the separator: for a file that exists
    at dir/name or at dir, a backslash and name, and for a file at name,
    [loadTmpl] returns the name, the contents of the file and no error,
    whatever separators dir has. Without a file at the path it returns the
    error with the empty name and text, and for the empty path the default
    template under its name, the world not being read. *)
Theorem loadTmpl_base_name (dir name contents : string) (sep : ascii) :
  name ≠ "" → no_char "/" name → no_char backslash name →
  sep = "/"%char ∨ sep = backslash →
  (files w !! (dir +:+ String sep name) = Some contents →
   loadTmpl defaultTmplStr w (dir +:+ String sep name) =
     (name, contents, None)) ∧
  (files w !! name = Some contents →
   loadTmpl defaultTmplStr w name = (name, contents, None)) ∧
  (∀ path : string,
     path ≠ "" → files w !! path = None →
     ∃ cause, loadTmpl defaultTmplStr w path = ("", "", Some cause)) ∧
  loadTmpl defaultTmplStr w "" = (defaultTmplName, defaultTmplStr, None).
Proof.
  intros Hname Hslash Hback Hsep.
  assert (∀ path, path ≠ "" →
                  (0 <? String.length path)%nat = true) as Hlen.
  { intros [|??]; done. }
  assert (String.eqb name "" = false) as Hname' by by apply String.eqb_neq.
  split; [|split; [|split; [|done]]].
  - intros Hfile. unfold loadTmpl, os_ReadFile.
    rewrite Hlen by (by destruct dir). rewrite Hfile. do 2 f_equal.
    change (dir +:+ String sep name) with (dir +:+ String sep "" +:+ name).
    rewrite !ReplaceAll_app, (ReplaceAll_absent name) by done.
    assert (strings_ReplaceAll (String sep "") backslash "/" = "/") as ->
      by (by destruct Hsep as [-> | ->]).
    unfold path_Base.
    replace (String.eqb _ "") with false
      by (symmetry; apply String.eqb_neq;
          by destruct (strings_ReplaceAll dir backslash "/")).
    rewrite <- append_assoc, strip_trailing_slashes_name by done.
    rewrite append_assoc. simpl.
    rewrite after_last_slash_dir by done. by rewrite Hname'.
  - intros Hfile. unfold loadTmpl, os_ReadFile.
    rewrite Hlen, Hfile by done. do 2 f_equal.
    rewrite ReplaceAll_absent by done. unfold path_Base. rewrite Hname'.
    pose proof (strip_trailing_slashes_name "" name Hname Hslash) as Hstrip.
    change ("" +:+ name) with name in Hstrip. rewrite Hstrip.
    rewrite after_last_slash_name by done. by rewrite Hname'.
  - intros path Hpath Hnone. unfold loadTmpl, os_ReadFile.
    rewrite Hlen, Hnone by done. by eexists.
Qed.

(** X20. The name of a template whose path [argsFunc] lets through: for a
    path that ends with .tmpl and at which a file exists, the name that
    [loadTmpl] returns ends with .tmpl too and has no slash and no backslash
    in it. *)
Theorem loadTmpl_validated_name (p contents : string) :
  files w !! (p +:+ ".tmpl") = Some contents →
  ∃ q : string,
    loadTmpl defaultTmplStr w (p +:+ ".tmpl") =
      (q +:+ ".tmpl", contents, None) ∧
    no_char "/" (q +:+ ".tmpl") ∧ no_char backslash (q +:+ ".tmpl").
Proof.
  intros Hfile. unfold loadTmpl, os_ReadFile.
  replace (0 <? String.length (p +:+ ".tmpl"))%nat with true
    by (rewrite append_length; simpl; symmetry; apply Nat.ltb_lt; lia).
  rewrite Hfile. rewrite ReplaceAll_app.
  change (strings_ReplaceAll ".tmpl" backslash "/") with ".tmpl".
  set (p' := strings_ReplaceAll p backslash "/").
  assert (no_char backslash p') as Hback by (by apply ReplaceAll_no_old).
  unfold path_Base.
  replace (String.eqb (p' +:+ ".tmpl") "") with false
    by (symmetry; apply String.eqb_neq; by destruct p').
  rewrite strip_trailing_slashes_name by done.
  rewrite after_last_slash_app by done.
  replace (String.eqb (after_last_slash p' +:+ ".tmpl") "") with false
    by (symmetry; apply String.eqb_neq; by destruct (after_last_slash p')).
  exists (after_last_slash p'). split; [done|].
  split; apply no_char_app; (split; [|done]);
    apply after_last_slash_no_char; auto.
Qed.

End LoadTmplProperties.

Lemma loadTmpl_base_name_witness :
  loadTmpl "# default"
    (mkWorld {[ "../samples/custom.tmpl" := "# custom" ]} ∅ ∅ true "")
    "../samples/custom.tmpl" = ("custom.tmpl", "# custom", None).
Proof.
  refine (proj1 (loadTmpl_base_name "# default"
                   (mkWorld {[ "../samples/custom.tmpl" := "# custom" ]}
                      ∅ ∅ true "")
                   "../samples" "custom.tmpl" "# custom" "/"%char
                   _ _ _ _) _);
    first [done | by left].
Defined.

Lemma loadTmpl_validated_name_witness :
  ∃ q : string,
    loadTmpl "# default"
      (mkWorld {[ "../samples/custom.tmpl" := "# custom" ]} ∅ ∅ true "")
      "../samples/custom.tmpl" = (q +:+ ".tmpl", "# custom", None) ∧
    no_char "/" (q +:+ ".tmpl") ∧ no_char backslash (q +:+ ".tmpl").
Proof.
  by apply (loadTmpl_validated_name "# default"
              (mkWorld {[ "../samples/custom.tmpl" := "# custom" ]}
                 ∅ ∅ true "")
              "../samples/custom" "# custom").
Defined.

(** ** Run *)

Lemma Run_destName (jsonFilePath : string) (rest : list string) :
  ∃ destName : string,
    (if (length (jsonFilePath :: rest) =? 2)%nat
     then index (jsonFilePath :: rest) 1 else Ret "") = Ret destName ∧
    destName = match rest with [out] => out | _ => "" end.
Proof. destruct rest as [|out [|]]; by eexists. Qed.

Section RunProperties.

Variable json_Unmarshal : string → gmap string any * option string.
Variable FormatFileName : string → string.
Variable template_Parse : string → string → option string.
Variable template_Execute :
  string → string → gmap string any → string * option string.
Variable defaultTmplStr : string.
Variable ScanStdin : string * option string.
Variable exportDefaultTemplate : World → go (World * string).

Variables (w : World) (flags : Flags).
Variables (jsonFilePath : string) (rest : list string).

Let run :=
  Run json_Unmarshal FormatFileName template_Parse template_Execute
    defaultTmplStr ScanStdin exportDefaultTemplate w flags
    (jsonFilePath :: rest).

Let input :=
  if String.eqb jsonFilePath "-" then ScanStdin
  else os_ReadFile w jsonFilePath.

Let destName := match rest with [out] => out | _ => "" end.

Hypothesis Hflag : GetTemplate flags = false.

(** The command up to the call of [jsonToMdFile]. *)
Lemma Run_unfold :
  run =
    '(statusRanges, err) ← parseStatusRanges (Statuses flags);
    match err with
    | Some err => Ret (w, [PrintError err], Some 1)
    | None =>
        match input with
        | (_, Some cause) => Ret (w, [PrintCause cause], Some 1)
        | (jsonBytes, None) =>
            match loadTmpl defaultTmplStr w (CustomTmplPath flags) with
            | (_, _, Some cause) => Ret (w, [PrintCause cause], Some 1)
            | (tmplName, tmplStr, None) =>
                '(w', (name, err)) ←
                  jsonToMdFile json_Unmarshal FormatFileName template_Parse
                    template_Execute w jsonBytes destName tmplName tmplStr
                    statusRanges (ConfirmReplaceExistingFile flags);
                match err with
                | Some err => Ret (w', [PrintError err], Some 1)
                | None =>
                    if negb (String.eqb name "-")
                    then Ret (w', [PrintCreated name], None)
                    else Ret (w', [], None)
                end
            end
        end
    end.
Proof.
  unfold run, Run. rewrite Hflag. cbn [mbind go_bind mret go_ret].
  change (index (jsonFilePath :: rest) 0) with (Ret jsonFilePath).
  cbn [mbind go_bind].
  destruct (Run_destName jsonFilePath rest) as (d & -> & ->).
  cbn [mbind go_bind]. fold destName. fold input.
  by destruct (parseStatusRanges (Statuses flags)) as [|[sr [e|]]].
Qed.

(** X21. The order of the checks of the command, without the flag of the
    template export: a malformed status filter ends the command with the
    status 1 and that error as the only line, before the input is read; then
    an input that cannot be read ends it, before the template is loaded; then
    a template that cannot be loaded. In the three cases nothing is created
    and nothing is written to the standard output. *)
Theorem Run_checks_in_order :
  (∀ (statusRanges : option (list (list Z))) (err : error),
     parseStatusRanges (Statuses flags) = Ret (statusRanges, Some err) →
     run = Ret (w, [PrintError err], Some 1)) ∧
  (∀ (statusRanges : option (list (list Z))) (jsonBytes cause : string),
     parseStatusRanges (Statuses flags) = Ret (statusRanges, None) →
     input = (jsonBytes, Some cause) →
     run = Ret (w, [PrintCause cause], Some 1)) ∧
  (∀ (statusRanges : option (list (list Z)))
     (jsonBytes tmplName tmplStr cause : string),
     parseStatusRanges (Statuses flags) = Ret (statusRanges, None) →
     input = (jsonBytes, None) →
     loadTmpl defaultTmplStr w (CustomTmplPath flags) =
       (tmplName, tmplStr, Some cause) →
     run = Ret (w, [PrintCause cause], Some 1)).
Proof.
  rewrite Run_unfold. split; [|split].
  - by intros statusRanges err ->.
  - intros statusRanges jsonBytes cause -> Hinput. simpl. by rewrite Hinput.
  - intros statusRanges jsonBytes tmplName tmplStr cause -> Hinput Htmpl.
    simpl. by rewrite Hinput, Htmpl.
Qed.

(** X22. What a return of the command tells, without the flag of the
    template export. When the function returns (no exit), either the
    destination was "-" and nothing is written to the standard error and
    no file has changed, or one line is written, which reports a created
    file: a file exists at the reported name, it is closed, and the name is
    the second argument when there is one. When the function exits, the status
    is 1 and the one line written is an error. *)
Theorem Run_outcome (w' : World) (printed : list stderr_line)
    (exit : option Z) :
  run = Ret (w', printed, exit) →
  match exit with
  | None =>
      (destName = "-" ∧ printed = [] ∧ files w' = files w) ∨
      (destName ≠ "-" ∧
       ∃ name : string,
         printed = [PrintCreated name] ∧ name ≠ "-" ∧
         is_Some (files w' !! name) ∧ (name ∉ open_files w') ∧
         (destName ≠ "" → name = destName))
  | Some status =>
      status = 1 ∧
      ((∃ err, printed = [PrintError err]) ∨
       (∃ cause, printed = [PrintCause cause]))
  end.
Proof.
  rewrite Run_unfold.
  destruct (parseStatusRanges (Statuses flags)) as [|[sr [e|]]]; [done|..];
    cbn [mbind go_bind].
  { intros [= <- <- <-]. split; [done|]. left. by eexists. }
  destruct input as [jsonBytes [cause|]].
  { intros [= <- <- <-]. split; [done|]. right. by eexists. }
  destruct (loadTmpl defaultTmplStr w (CustomTmplPath flags))
    as [[tmplName tmplStr] [cause|]].
  { intros [= <- <- <-]. split; [done|]. right. by eexists. }
  destruct (jsonToMdFile _ _ _ _ _ _ _ _ _ _ _)
    as [|[w1 [name [e|]]]] eqn:Hrun; [done|..]; cbn [mbind go_bind].
  { intros [= <- <- <-]. split; [done|]. left. by eexists. }
  apply jsonToMdFile_success_inv in Hrun
    as (parsed & collection & bytes & _ & _ & _ & _ & Hdash & Hstdout &
        Hfile).
  destruct (String.eqb_spec name "-") as [Hname|Hname]; simpl.
  - intros [= <- <- <-]. left.
    split; [by apply Hdash|]. split; [done|]. by apply Hstdout.
  - intros [= <- <- <-]. right.
    split; [by rewrite <- Hdash|]. exists name.
    destruct (Hfile Hname) as (Hfiles & Hclosed & _ & _ & Hgiven).
    repeat split; try done. rewrite Hfiles, lookup_insert_eq. by eexists.
Qed.

(** With a first argument, the command panics where [jsonToMdFile] does. *)
Lemma Run_panics_cons :
  run = Panic ↔
  ∃ (statusRanges : option (list (list Z)))
    (jsonBytes tmplName tmplStr : string),
    parseStatusRanges (Statuses flags) = Ret (statusRanges, None) ∧
    input = (jsonBytes, None) ∧
    loadTmpl defaultTmplStr w (CustomTmplPath flags) =
      (tmplName, tmplStr, None) ∧
    jsonToMdFile json_Unmarshal FormatFileName template_Parse
      template_Execute w jsonBytes destName tmplName tmplStr statusRanges
      (ConfirmReplaceExistingFile flags) = Panic.
Proof.
  rewrite Run_unfold.
  pose proof (parseStatusRanges_eq (Statuses flags)) as Hparse.
  destruct (parseStatusRanges (Statuses flags)) as [|[sr [e|]]]; [done|..];
    cbn [mbind go_bind].
  { split; [done|]. by intros (? & ? & ? & ? & [=] & _). }
  destruct input as [jsonBytes [cause|]].
  { split; [done|]. by intros (? & ? & ? & ? & _ & [=] & _). }
  destruct (loadTmpl defaultTmplStr w (CustomTmplPath flags))
    as [[tmplName tmplStr] [cause|]].
  { split; [done|]. by intros (? & ? & ? & ? & _ & _ & [=] & _). }
  destruct (jsonToMdFile _ _ _ _ _ _ _ _ _ _ _)
    as [|[w1 [name [e|]]]] eqn:Hrun; cbn [mbind go_bind].
  - split; [|done]. intros _. by exists sr, jsonBytes, tmplName, tmplStr.
  - split; [done|].
    intros (? & ? & ? & ? & [= <-] & [= <-] & [= <- <-] & Hpanic).
    congruence.
  - split; [by destruct (negb _)|].
    intros (? & ? & ? & ? & [= <-] & [= <-] & [= <- <-] & Hpanic).
    congruence.
Qed.

End RunProperties.

(** X23. Where the command can panic, without the flag of the template
    export: at the read of [args[0]] when there is no argument, and otherwise
    nowhere but in [jsonToMdFile], once the status filter has parsed, the
    input is read and the template is loaded. The read of [args[1]] is
    guarded by the length and never panics. *)
Theorem Run_panics_iff
    (json_Unmarshal : string → gmap string any * option string)
    (FormatFileName : string → string)
    (template_Parse : string → string → option string)
    (template_Execute :
       string → string → gmap string any → string * option string)
    (defaultTmplStr : string) (ScanStdin : string * option string)
    (exportDefaultTemplate : World → go (World * string))
    (w : World) (flags : Flags) (args : list string) :
  GetTemplate flags = false →
  Run json_Unmarshal FormatFileName template_Parse template_Execute
    defaultTmplStr ScanStdin exportDefaultTemplate w flags args = Panic ↔
  args = [] ∨
  ∃ (jsonFilePath : string) (rest : list string)
    (statusRanges : option (list (list Z)))
    (jsonBytes tmplName tmplStr : string),
    args = jsonFilePath :: rest ∧
    parseStatusRanges (Statuses flags) = Ret (statusRanges, None) ∧
    (if String.eqb jsonFilePath "-" then ScanStdin
     else os_ReadFile w jsonFilePath) = (jsonBytes, None) ∧
    loadTmpl defaultTmplStr w (CustomTmplPath flags) =
      (tmplName, tmplStr, None) ∧
    jsonToMdFile json_Unmarshal FormatFileName template_Parse
      template_Execute w jsonBytes
      match rest with [out] => out | _ => "" end tmplName tmplStr
      statusRanges (ConfirmReplaceExistingFile flags) = Panic.
Proof.
  intros Hflag. destruct args as [|jsonFilePath rest].
  - split; [by left|]. intros _. unfold Run. by rewrite Hflag.
  - rewrite (Run_panics_cons json_Unmarshal FormatFileName template_Parse
               template_Execute defaultTmplStr ScanStdin
               exportDefaultTemplate w flags jsonFilePath rest Hflag).
    split.
    + intros (sr & jsonBytes & tmplName & tmplStr & H). right.
      by exists jsonFilePath, rest, sr, jsonBytes, tmplName, tmplStr.
    + intros [[=]|(p & r & sr & jsonBytes & tmplName & tmplStr & [= <- <-]
                   & H)].
      by exists sr, jsonBytes, tmplName, tmplStr.
Qed.

Lemma Run_checks_in_order_witness :
  Run sample_Unmarshal (λ name, name) parsing_Parse title_Execute
    "# {{ .info.name }}" ("", Some "EOF") (λ w, Ret (w, "collection.tmpl"))
    test_world (mkFlags "2xx" "" false false) ["-"] =
    Ret (test_world,
         [PrintError (ErrNotInteger "2xx")], Some 1) ∧
  Run sample_Unmarshal (λ name, name) parsing_Parse title_Execute
    "# {{ .info.name }}" ("", Some "EOF") (λ w, Ret (w, "collection.tmpl"))
    test_world (mkFlags "200" "none.tmpl" false false) ["-"] =
    Ret (test_world, [PrintCause "EOF"], Some 1) ∧
  Run sample_Unmarshal (λ name, name) parsing_Parse title_Execute
    "# {{ .info.name }}" ("", Some "EOF") (λ w, Ret (w, "collection.tmpl"))
    test_world (mkFlags "200" "none.tmpl" false false) ["README.md"] =
    Ret (test_world,
         [PrintCause "open none.tmpl: no such file or directory"], Some 1).
Proof.
  split; [|split].
  - eapply (proj1 (Run_checks_in_order sample_Unmarshal (λ name, name)
                     parsing_Parse title_Execute "# {{ .info.name }}"
                     ("", Some "EOF") (λ w, Ret (w, "collection.tmpl"))
                     test_world (mkFlags "2xx" "" false false) "-" []
                     eq_refl)).
    by vm_compute.
  - eapply (proj1 (proj2 (Run_checks_in_order sample_Unmarshal (λ name, name)
                     parsing_Parse title_Execute "# {{ .info.name }}"
                     ("", Some "EOF") (λ w, Ret (w, "collection.tmpl"))
                     test_world (mkFlags "200" "none.tmpl" false false)
                     "-" [] eq_refl))); by vm_compute.
  - eapply (proj2 (proj2 (Run_checks_in_order sample_Unmarshal (λ name, name)
                     parsing_Parse title_Execute "# {{ .info.name }}"
                     ("", Some "EOF") (λ w, Ret (w, "collection.tmpl"))
                     test_world (mkFlags "200" "none.tmpl" false false)
                     "README.md" [] eq_refl))); by vm_compute.
Defined.

Lemma Run_outcome_witness :
  ∃ w' : World,
    Run sample_Unmarshal (λ name, name) parsing_Parse title_Execute
      "# {{ .info.name }}" ("", Some "EOF")
      (λ w, Ret (w, "collection.tmpl")) test_world
      (mkFlags "200-299" "" false false) ["README.md"] =
      Ret (w', [PrintCreated "Users.md"], None) ∧
    is_Some (files w' !! "Users.md") ∧ "Users.md" ∉ open_files w'.
Proof.
  eexists. split; [by vm_compute|].
  match goal with
  | |- is_Some (files ?w' !! _) ∧ _ =>
      destruct (Run_outcome sample_Unmarshal (λ name, name) parsing_Parse
                  title_Execute "# {{ .info.name }}" ("", Some "EOF")
                  (λ w, Ret (w, "collection.tmpl")) test_world
                  (mkFlags "200-299" "" false false) "README.md" [] eq_refl
                  w' [PrintCreated "Users.md"] None)
        as [(Hdash & _)|(_ & name & [= <-] & _ & Hfile & Hclosed & _)]
  end; [by vm_compute|done|done].
Defined.

Lemma Run_panics_iff_witness :
  Run sample_Unmarshal (λ name, name) parsing_Parse title_Execute
    "# {{ .info.name }}" ("", Some "EOF") (λ w, Ret (w, "collection.tmpl"))
    test_world (mkFlags "" "" false false) [] = Panic.
Proof.
  apply (proj2 (Run_panics_iff sample_Unmarshal (λ name, name) parsing_Parse
                  title_Execute "# {{ .info.name }}" ("", Some "EOF")
                  (λ w, Ret (w, "collection.tmpl")) test_world
                  (mkFlags "" "" false false) [] eq_refl)).
  by left.
Defined.

